(** * The Happy protocol package: schemas, unions, payload envelopes and
      the github-casing lint rule, embedded from the TypeScript/JavaScript
      sources.

    The schemas of [@happy/protocol] are written with the zod combinator
    library ([z.object], [z.string], [z.discriminatedUnion], ...).  The
    combinators themselves are third-party code; the package declares
    [zod ^3.0.0] as its peer dependency, and the first part of this file
    gives the zod 3 parsing semantics those combinators have (statuses
    valid / dirty / aborted, issues with a code and a path).  Every schema
    after that is a transcription of one [export const ...Schema] of the
    sources. *)

From Stdlib Require Import String Ascii List ZArith Bool Arith Lia.
Import ListNotations.
Set Warnings "-register-all,-abstract-large-number".
Open Scope string_scope.
Open Scope list_scope.

(* ================================================================== *)
(** ** JavaScript values                                               *)
(* ================================================================== *)

(** The data a schema is run against.  An object is its list of own
    properties in insertion order; property names of one object are
    distinct, and a lookup takes the first binding.  No schema of the
    package looks at the magnitude of a number ([z.number()] carries no
    check here), so numbers are the integers the fixtures use, plus
    [NaN], which zod tells apart.  Strings are sequences of character
    codes, and [String.length] is the [length] that [.min] and [.max]
    compare. *)
Inductive value : Type :=
| VUndefined
| VNull
| VBool (b : bool)
| VNum (n : Z)
| VNaN
| VStr (s : string)
| VArr (items : list value)
| VObj (props : list (string * value)).

(** [data[key]]: the property, or [undefined] when there is none. *)
Fixpoint prop (key : string) (props : list (string * value)) : value :=
  match props with
  | [] => VUndefined
  | (k, v) :: rest => if String.eqb key k then v else prop key rest
  end.

(** [key in data]. *)
Fixpoint has_prop (key : string) (props : list (string * value)) : bool :=
  match props with
  | [] => false
  | (k, _) :: rest => String.eqb key k || has_prop key rest
  end.

(** [value[key]] on an arbitrary value (only objects have properties
    here; member access on a string or a number yields [undefined] for
    the names used in this package). *)
Definition get (key : string) (v : value) : value :=
  match v with
  | VObj props => prop key props
  | _ => VUndefined
  end.

(** zod's [getParsedType]. *)
Inductive ZodParsedType : Type :=
| ty_undefined | ty_null | ty_boolean | ty_number | ty_nan
| ty_string | ty_array | ty_object.

Definition getParsedType (v : value) : ZodParsedType :=
  match v with
  | VUndefined => ty_undefined
  | VNull => ty_null
  | VBool _ => ty_boolean
  | VNum _ => ty_number
  | VNaN => ty_nan
  | VStr _ => ty_string
  | VArr _ => ty_array
  | VObj _ => ty_object
  end.

(* ================================================================== *)
(** ** Issues and parse results                                        *)
(* ================================================================== *)

Inductive path_elem : Type :=
| Key (k : string)
| Index (i : nat).

Definition path := list path_elem.

(** What an [invalid_type] issue expected: a parsed type, or (for
    [z.enum]) one of the listed strings. *)
Inductive expectation : Type :=
| a_type (t : ZodParsedType)
| one_of (values : list string).

(** The issue codes of zod 3 that the schemas of this package can
    raise, each with the data zod attaches to it. *)
Inductive issue : Type :=
| invalid_type (expected : expectation) (received : ZodParsedType) (p : path)
| invalid_literal (expected : string) (received : value) (p : path)
| invalid_enum_value (options : list string) (received : string) (p : path)
| invalid_union (unionErrors : list (list issue)) (p : path)
| invalid_union_discriminator (options : list string) (p : path)
| too_small (minimum : nat) (p : path)
| too_big (maximum : nat) (p : path).

Inductive ZodIssueCode : Type :=
| code_invalid_type
| code_invalid_literal
| code_invalid_enum_value
| code_invalid_union
| code_invalid_union_discriminator
| code_too_small
| code_too_big.

Definition code (i : issue) : ZodIssueCode :=
  match i with
  | invalid_type _ _ _ => code_invalid_type
  | invalid_literal _ _ _ => code_invalid_literal
  | invalid_enum_value _ _ _ => code_invalid_enum_value
  | invalid_union _ _ => code_invalid_union
  | invalid_union_discriminator _ _ => code_invalid_union_discriminator
  | too_small _ _ => code_too_small
  | too_big _ _ => code_too_big
  end.

(** What a schema's [_parse] returns, together with the issues it put
    in its context: [valid] carries the output, [dirty] an output and
    the issues of failed checks, [aborted] only issues. *)
Inductive ParseReturn : Type :=
| Valid (out : value)
| Dirty (out : value) (issues : list issue)
| Aborted (issues : list issue).

Definition issues_of (r : ParseReturn) : list issue :=
  match r with
  | Valid _ => []
  | Dirty _ l | Aborted l => l
  end.

Definition is_aborted (r : ParseReturn) : bool :=
  match r with Aborted _ => true | _ => false end.

Definition is_dirty (r : ParseReturn) : bool :=
  match r with Dirty _ _ => true | _ => false end.

Definition is_valid (r : ParseReturn) : bool :=
  match r with Valid _ => true | _ => false end.

Definition value_of (r : ParseReturn) : value :=
  match r with
  | Valid v | Dirty v _ => v
  | Aborted _ => VUndefined
  end.

(** [safeParse]'s result: [{ success: true, data }] or
    [{ success: false, error }] with the issues of the error. *)
Inductive SafeParseReturn : Type :=
| success (data : value)
| failure (error : list issue).

Definition handleResult (r : ParseReturn) : SafeParseReturn :=
  match r with
  | Valid v => success v
  | Dirty _ l | Aborted l => failure l
  end.

(* ================================================================== *)
(** ** Schemas                                                         *)
(* ================================================================== *)

Inductive UnknownKeys : Type := strip | passthrough.

(** The combinators the package uses.  [ZString min max] is
    [z.string()] with the optional [.min(n)] and [.max(n)] checks. *)
Inductive schema : Type :=
| ZString (min max : option nat)
| ZNumber
| ZBoolean
| ZLiteral (lit : string)
| ZEnum (values : list string)
| ZObject (shape : list (string * schema)) (unknownKeys : UnknownKeys)
| ZArray (element : schema)
| ZOptional (inner : schema)
| ZNullable (inner : schema)
| ZUnion (options : list schema)
| ZDiscriminatedUnion (discriminator : string) (options : list schema).

Module z.
Definition string : schema := ZString None None.
Definition number : schema := ZNumber.
Definition boolean : schema := ZBoolean.
Definition literal (s : String.string) : schema := ZLiteral s.
Definition enum (l : list String.string) : schema := ZEnum l.
Definition object (shape : list (String.string * schema)) : schema :=
  ZObject shape strip.
Definition array (s : schema) : schema := ZArray s.
Definition union (l : list schema) : schema := ZUnion l.
Definition discriminatedUnion (d : String.string) (l : list schema) : schema :=
  ZDiscriminatedUnion d l.
End z.

(** The chained methods [.min(n)], [.max(n)], [.optional()],
    [.nullable()], [.nullish()] and [.passthrough()]; [s .> m] reads
    as the method call [s.m]. *)
Module zm.
Definition min (n : nat) (s : schema) : schema :=
  match s with ZString _ mx => ZString (Some n) mx | _ => s end.
Definition max (n : nat) (s : schema) : schema :=
  match s with ZString mn _ => ZString mn (Some n) | _ => s end.
Definition optional (s : schema) : schema := ZOptional s.
Definition nullable (s : schema) : schema := ZNullable s.
Definition nullish (s : schema) : schema := ZOptional (ZNullable s).
Definition passthrough (s : schema) : schema :=
  match s with ZObject shape _ => ZObject shape passthrough | _ => s end.
End zm.

Notation "s .> m" := (m s) (at level 45, left associativity, only parsing).

(** zod's [getDiscriminator]: the literal values a discriminator
    field's schema admits. *)
Definition getDiscriminator (s : schema) : list string :=
  match s with
  | ZLiteral l => [l]
  | ZEnum vs => vs
  | _ => []
  end.

Fixpoint shape_get (key : string) (shape : list (string * schema)) : option schema :=
  match shape with
  | [] => None
  | (k, s) :: rest => if String.eqb key k then Some s else shape_get key rest
  end.

(** The discriminator values of one option of a discriminated union:
    [getDiscriminator(type.shape[discriminator])]. *)
Definition discriminatorValues (d : string) (option_ : schema) : list string :=
  match option_ with
  | ZObject shape _ =>
      match shape_get d shape with
      | Some s => getDiscriminator s
      | None => []
      end
  | _ => []
  end.

(** The [optionsMap] that [ZodDiscriminatedUnion.create] builds: one
    entry per discriminator value, in the order of the options.  The
    entries carry whatever [payload] goes with the option (the option
    itself, or the option together with its parser). *)
Definition optionsMap {A : Type} (d : string) (payload : schema -> A)
    (options : list schema) : list (string * A) :=
  flat_map (fun o => map (fun v => (v, payload o)) (discriminatorValues d o))
           options.

Fixpoint assoc {A : Type} (key : string) (m : list (string * A)) : option A :=
  match m with
  | [] => None
  | (k, a) :: rest => if String.eqb key k then Some a else assoc key rest
  end.

(** [optionsMap.get(discriminatorValue)]: the keys are the literal
    strings, so a value that is not a string finds nothing. *)
Definition Map_get {A : Type} (key : value) (m : list (string * A)) : option A :=
  match key with
  | VStr k => assoc k m
  | _ => None
  end.

Definition Map_keys {A : Type} (m : list (string * A)) : list string := map fst m.

Fixpoint mem (x : string) (l : list string) : bool :=
  match l with
  | [] => false
  | y :: rest => String.eqb x y || mem x rest
  end.

(* ================================================================== *)
(** ** Parsing (zod 3)                                                 *)
(* ================================================================== *)

(** One entry of the [pairs] array that [ZodObject._parse] hands to
    [mergeObjectSync]. *)
Record pair : Type := mkPair {
  pair_key : string;
  pair_value : ParseReturn;
  alwaysSet : bool
}.

Definition finalObject (pairs : list pair) : list (string * value) :=
  flat_map (fun pr =>
    if negb (String.eqb (pair_key pr) "__proto__")
       && (negb (match value_of (pair_value pr) with VUndefined => true | _ => false end)
           || alwaysSet pr)
    then [(pair_key pr, value_of (pair_value pr))]
    else []) pairs.

(** [ParseStatus.mergeObjectSync]: aborted as soon as one value is
    aborted, dirty when one is dirty, and otherwise the object of the
    parsed values.  Every key has been parsed before the merge, so the
    context holds the issues of all of them. *)
Definition mergeObjectSync (pairs : list pair) : ParseReturn :=
  let issues := flat_map (fun pr => issues_of (pair_value pr)) pairs in
  if existsb (fun pr => is_aborted (pair_value pr)) pairs then Aborted issues
  else if existsb (fun pr => is_dirty (pair_value pr)) pairs
       then Dirty (VObj (finalObject pairs)) issues
       else Valid (VObj (finalObject pairs)).

(** [ParseStatus.mergeArray]. *)
Definition mergeArray (results : list ParseReturn) : ParseReturn :=
  let issues := flat_map issues_of results in
  if existsb is_aborted results then Aborted issues
  else if existsb is_dirty results
       then Dirty (VArr (map value_of results)) issues
       else Valid (VArr (map value_of results)).

(** The keys of the input that the shape does not name, passed
    through unparsed ([unknownKeys === "passthrough"]). *)
Definition extraPairs (shapeKeys : list string) (data : list (string * value)) : list pair :=
  map (fun kv => mkPair (fst kv) (Valid (prop (fst kv) data)) false)
      (filter (fun kv => negb (mem (fst kv) shapeKeys)) data).

Definition string_checks (mn mx : option nat) (s : string) (p : path) : list issue :=
  (match mn with
   | Some n => if Nat.ltb (String.length s) n then [too_small n p] else []
   | None => []
   end) ++
  (match mx with
   | Some n => if Nat.ltb n (String.length s) then [too_big n p] else []
   | None => []
   end).

(** [issues.push(childCtx.common.issues)] when that list is not empty. *)
Definition push_issues (acc : list (list issue)) (l : list issue) : list (list issue) :=
  match l with [] => acc | _ => acc ++ [l] end.

(** The loop of [ZodObject._parse] over the shape keys: each key's
    validator runs on [data[key]] under the path extended by the key. *)
Definition parse_shape (parse : schema -> path -> value -> ParseReturn)
    (shape : list (string * schema)) (p : path) (data : list (string * value))
    : list pair :=
  map (fun entry =>
         mkPair (fst entry)
                (parse (snd entry) (p ++ [Key (fst entry)]) (prop (fst entry) data))
                (has_prop (fst entry) data))
      shape.

(** The loop of [ZodArray._parse] over the items, [i] being the index
    of the first one. *)
Fixpoint parse_items (parse_element : path -> value -> ParseReturn)
    (p : path) (i : nat) (items : list value) : list ParseReturn :=
  match items with
  | [] => []
  | item :: rest =>
      parse_element (p ++ [Index i]) item
      :: parse_items parse_element p (S i) rest
  end.

(** The loop of [ZodUnion._parse] over the results of its options, in
    order: the first valid result is returned; otherwise the first
    dirty one; otherwise one [invalid_union] issue holding the issues
    of every option. *)
Fixpoint union_loop (results : list ParseReturn) (p : path)
    (dirty : option ParseReturn) (issues : list (list issue)) : ParseReturn :=
  match results with
  | [] =>
      match dirty with
      | Some r => r
      | None => Aborted [invalid_union issues p]
      end
  | result :: rest =>
      match result with
      | Valid _ => result
      | Dirty _ l =>
          union_loop rest p
            (match dirty with None => Some result | Some _ => dirty end)
            (push_issues issues l)
      | Aborted l => union_loop rest p dirty (push_issues issues l)
      end
  end.

(** [_parse] of each schema class; [p] is the path of the context.
    In the discriminated union the options map carries, for each
    option, that option's parse of the input, so that the lookup
    yields the result of the one option selected;
    [parse_discriminatedUnion] below restates the case in zod's order,
    the lookup first and then the parse of the option found. *)
Fixpoint parse (s : schema) (p : path) (v : value) {struct s} : ParseReturn :=
  match s with
  | ZString mn mx =>
      match v with
      | VStr str =>
          match string_checks mn mx str p with
          | [] => Valid v
          | l => Dirty v l
          end
      | _ => Aborted [invalid_type (a_type ty_string) (getParsedType v) p]
      end
  | ZNumber =>
      match v with
      | VNum _ => Valid v
      | _ => Aborted [invalid_type (a_type ty_number) (getParsedType v) p]
      end
  | ZBoolean =>
      match v with
      | VBool _ => Valid v
      | _ => Aborted [invalid_type (a_type ty_boolean) (getParsedType v) p]
      end
  | ZLiteral lit =>
      match v with
      | VStr str => if String.eqb str lit then Valid v
                    else Aborted [invalid_literal lit v p]
      | _ => Aborted [invalid_literal lit v p]
      end
  | ZEnum values =>
      match v with
      | VStr str => if mem str values then Valid v
                    else Aborted [invalid_enum_value values str p]
      | _ => Aborted [invalid_type (one_of values) (getParsedType v) p]
      end
  | ZObject shape unknownKeys =>
      match v with
      | VObj data =>
          mergeObjectSync
            (parse_shape parse shape p data ++
             match unknownKeys with
             | passthrough => extraPairs (map fst shape) data
             | strip => []
             end)
      | _ => Aborted [invalid_type (a_type ty_object) (getParsedType v) p]
      end
  | ZArray element =>
      match v with
      | VArr items => mergeArray (parse_items (parse element) p 0 items)
      | _ => Aborted [invalid_type (a_type ty_array) (getParsedType v) p]
      end
  | ZOptional inner =>
      match v with
      | VUndefined => Valid VUndefined
      | _ => parse inner p v
      end
  | ZNullable inner =>
      match v with
      | VNull => Valid VNull
      | _ => parse inner p v
      end
  | ZUnion options =>
      union_loop (map (fun option_ => parse option_ p v) options) p None []
  | ZDiscriminatedUnion d options =>
      match v with
      | VObj data =>
          let m := optionsMap d (fun option_ => parse option_ p v) options in
          match Map_get (prop d data) m with
          | Some result => result
          | None =>
              Aborted [invalid_union_discriminator (Map_keys m) (p ++ [Key d])]
          end
      | _ => Aborted [invalid_type (a_type ty_object) (getParsedType v) p]
      end
  end.

Definition safeParse (s : schema) (data : value) : SafeParseReturn :=
  handleResult (parse s [] data).

(** What [ZodDiscriminatedUnion.create] demands of its options, or it
    throws: every option yields a discriminator value, and no value is
    claimed twice. *)
Fixpoint distinct (l : list string) : bool :=
  match l with
  | [] => true
  | x :: rest => negb (mem x rest) && distinct rest
  end.

Definition discriminatedUnion_creates (d : string) (options : list schema) : bool :=
  forallb (fun o => match discriminatorValues d o with [] => false | _ => true end)
          options
  && distinct (Map_keys (optionsMap d (fun o => o) options)).

(* ================================================================== *)
(** ** constraints.ts                                                  *)
(* ================================================================== *)

(** [STRING_LIMITS] is imported from [../constraints], a file that is
    not among the sources; the three limits the schemas use are
    therefore parameters of everything below. *)
Record StringLimits : Type := {
  ID_MAX : nat;
  ENCRYPTED_STATE_MAX : nat;
  DATA_ENCRYPTION_KEY_MAX : nat
}.

(* ================================================================== *)
(** ** common.ts                                                       *)
(* ================================================================== *)

Definition GitHubProfileSchema : schema :=
  z.object [
    ("id", z.number);
    ("login", z.string);
    ("name", z.string);
    ("avatar_url", z.string);
    ("email", z.string .> zm.optional);
    ("bio", z.string .> zm.nullable)
  ].

Definition ImageRefSchema : schema :=
  z.object [
    ("width", z.number);
    ("height", z.number);
    ("thumbhash", z.string);
    ("path", z.string);
    ("url", z.string)
  ].

Definition RelationshipStatusSchema : schema :=
  z.enum ["none"; "requested"; "pending"; "friend"; "rejected"].

Definition UserProfileSchema : schema :=
  z.object [
    ("id", z.string);
    ("firstName", z.string);
    ("lastName", z.string .> zm.nullable);
    ("avatar", ImageRefSchema .> zm.nullable);
    ("username", z.string);
    ("bio", z.string .> zm.nullable);
    ("status", RelationshipStatusSchema)
  ].

Definition FeedBodySchema : schema :=
  z.discriminatedUnion "kind" [
    z.object [("kind", z.literal "friend_request"); ("uid", z.string)];
    z.object [("kind", z.literal "friend_accepted"); ("uid", z.string)];
    z.object [("kind", z.literal "text"); ("text", z.string)]
  ].

Definition EncryptedContentSchema : schema :=
  z.object [
    ("t", z.literal "encrypted");
    ("c", z.string)
  ].

Definition VersionedValueSchema : schema :=
  z.object [
    ("version", z.number);
    ("value", z.string)
  ].

Definition NullableVersionedValueSchema : schema :=
  z.object [
    ("version", z.number);
    ("value", z.string .> zm.nullable)
  ].

(* ================================================================== *)
(** ** updates/message.ts                                              *)
(* ================================================================== *)

Definition ApiMessageSchema : schema :=
  z.object [
    ("id", z.string);
    ("seq", z.number);
    ("localId", z.string .> zm.nullish);
    ("content", EncryptedContentSchema);
    ("createdAt", z.number)
  ].

Definition ApiUpdateNewMessageSchema : schema :=
  z.object [
    ("t", z.literal "new-message");
    ("sid", z.string);
    ("message", ApiMessageSchema)
  ].

Definition ApiDeleteSessionSchema : schema :=
  z.object [
    ("t", z.literal "delete-session");
    ("sid", z.string)
  ].

(* ================================================================== *)
(** ** updates/artifact.ts                                             *)
(* ================================================================== *)

Definition ApiNewArtifactSchema : schema :=
  z.object [
    ("t", z.literal "new-artifact");
    ("artifactId", z.string);
    ("header", z.string);
    ("headerVersion", z.number);
    ("body", z.string .> zm.optional);
    ("bodyVersion", z.number .> zm.optional);
    ("dataEncryptionKey", z.string);
    ("seq", z.number);
    ("createdAt", z.number);
    ("updatedAt", z.number)
  ].

Definition ApiUpdateArtifactSchema : schema :=
  z.object [
    ("t", z.literal "update-artifact");
    ("artifactId", z.string);
    ("header", VersionedValueSchema .> zm.optional);
    ("body", VersionedValueSchema .> zm.optional)
  ].

Definition ApiDeleteArtifactSchema : schema :=
  z.object [
    ("t", z.literal "delete-artifact");
    ("artifactId", z.string)
  ].

(* ================================================================== *)
(** ** updates/account.ts                                              *)
(* ================================================================== *)

Definition ApiUpdateAccountSchema : schema :=
  z.object [
    ("t", z.literal "update-account");
    ("id", z.string);
    ("settings", NullableVersionedValueSchema .> zm.nullish);
    ("firstName", z.string .> zm.nullish);
    ("lastName", z.string .> zm.nullish);
    ("avatar", ImageRefSchema .> zm.nullish);
    ("github", GitHubProfileSchema .> zm.nullish)
  ].

(* ================================================================== *)
(** ** updates/misc.ts                                                 *)
(* ================================================================== *)

Definition ApiRelationshipUpdatedSchema : schema :=
  z.object [
    ("t", z.literal "relationship-updated");
    ("fromUserId", z.string);
    ("toUserId", z.string);
    ("status", RelationshipStatusSchema);
    ("action", z.enum ["created"; "updated"; "deleted"]);
    ("fromUser", UserProfileSchema .> zm.optional);
    ("toUser", UserProfileSchema .> zm.optional);
    ("timestamp", z.number)
  ].

Definition ApiNewFeedPostSchema : schema :=
  z.object [
    ("t", z.literal "new-feed-post");
    ("id", z.string);
    ("body", FeedBodySchema);
    ("cursor", z.string);
    ("createdAt", z.number);
    ("repeatKey", z.string .> zm.nullable)
  ].

Definition ApiKvBatchUpdateSchema : schema :=
  z.object [
    ("t", z.literal "kv-batch-update");
    ("changes", z.array (z.object [
        ("key", z.string);
        ("value", z.string .> zm.nullable);
        ("version", z.number)
      ]))
  ].

Section Bounded.

Variable STRING_LIMITS : StringLimits.

(* ================================================================== *)
(** ** updates/session.ts (the revision with length constraints)       *)
(* ================================================================== *)

Definition ApiUpdateNewSessionSchema : schema :=
  z.object [
    ("t", z.literal "new-session");
    ("sid", z.string .> zm.min 1 .> zm.max (ID_MAX STRING_LIMITS));
    ("seq", z.number);
    ("metadata", z.string .> zm.max (ENCRYPTED_STATE_MAX STRING_LIMITS));
    ("metadataVersion", z.number);
    ("agentState",
       z.string .> zm.max (ENCRYPTED_STATE_MAX STRING_LIMITS) .> zm.nullable);
    ("agentStateVersion", z.number);
    ("dataEncryptionKey",
       z.string .> zm.max (DATA_ENCRYPTION_KEY_MAX STRING_LIMITS) .> zm.nullable);
    ("active", z.boolean);
    ("activeAt", z.number);
    ("createdAt", z.number);
    ("updatedAt", z.number)
  ].

Definition ApiUpdateSessionStateSchema : schema :=
  z.object [
    ("t", z.literal "update-session");
    ("sid", z.string .> zm.min 1 .> zm.max (ID_MAX STRING_LIMITS));
    ("agentState", NullableVersionedValueSchema .> zm.nullish);
    ("metadata", NullableVersionedValueSchema .> zm.nullish)
  ].

Definition ArchiveReasonSchema : schema :=
  z.enum ["revival_failed"; "user_requested"; "timeout"].

Definition ApiArchiveSessionSchema : schema :=
  z.object [
    ("t", z.literal "archive-session");
    ("sid", z.string .> zm.min 1 .> zm.max (ID_MAX STRING_LIMITS));
    ("archivedAt", z.number);
    ("archiveReason", ArchiveReasonSchema)
  ].

(* ================================================================== *)
(** ** updates/machine.ts (the revision with length constraints)       *)
(* ================================================================== *)

Definition ApiNewMachineSchema : schema :=
  z.object [
    ("t", z.literal "new-machine");
    ("machineId", z.string .> zm.min 1 .> zm.max (ID_MAX STRING_LIMITS));
    ("seq", z.number);
    ("metadata", z.string .> zm.max (ENCRYPTED_STATE_MAX STRING_LIMITS));
    ("metadataVersion", z.number);
    ("daemonState",
       z.string .> zm.max (ENCRYPTED_STATE_MAX STRING_LIMITS) .> zm.nullable);
    ("daemonStateVersion", z.number);
    ("dataEncryptionKey",
       z.string .> zm.max (DATA_ENCRYPTION_KEY_MAX STRING_LIMITS) .> zm.nullable);
    ("active", z.boolean);
    ("activeAt", z.number);
    ("createdAt", z.number);
    ("updatedAt", z.number)
  ].

Definition ApiUpdateMachineStateSchema : schema :=
  z.object [
    ("t", z.literal "update-machine");
    ("machineId", z.string .> zm.min 1 .> zm.max (ID_MAX STRING_LIMITS));
    ("metadata", VersionedValueSchema .> zm.optional);
    ("daemonState", VersionedValueSchema .> zm.optional);
    ("active", z.boolean .> zm.optional);
    ("activeAt", z.number .> zm.optional)
  ].

Definition ApiDeleteMachineSchema : schema :=
  z.object [
    ("t", z.literal "delete-machine");
    ("machineId", z.string .> zm.min 1 .> zm.max (ID_MAX STRING_LIMITS))
  ].

(* ================================================================== *)
(** ** updates/index.ts                                                *)
(* ================================================================== *)

Definition ApiUpdateSchema : schema :=
  z.discriminatedUnion "t" [
    ApiUpdateNewMessageSchema;
    ApiUpdateNewSessionSchema;
    ApiDeleteSessionSchema;
    ApiUpdateSessionStateSchema;
    ApiUpdateAccountSchema;
    ApiUpdateMachineStateSchema;
    ApiNewMachineSchema;
    ApiNewArtifactSchema;
    ApiUpdateArtifactSchema;
    ApiDeleteArtifactSchema;
    ApiRelationshipUpdatedSchema;
    ApiNewFeedPostSchema;
    ApiKvBatchUpdateSchema
  ].

(* ================================================================== *)
(** ** payloads.ts                                                     *)
(* ================================================================== *)

Definition ApiUpdateContainerSchema : schema :=
  z.object [
    ("id", z.string);
    ("seq", z.number);
    ("body", ApiUpdateSchema);
    ("createdAt", z.number)
  ].

End Bounded.

(** [z.string() as z.ZodType<ApiUpdateType>] is a cast for the type
    checker only: at run time the field is a plain [z.string()]. *)
Definition UpdatePayloadSchema : schema :=
  z.object [
    ("id", z.string);
    ("seq", z.number);
    ("body", z.object [("t", z.string)] .> zm.passthrough);
    ("createdAt", z.number)
  ].

(* ================================================================== *)
(** ** ephemeral/events.ts                                             *)
(* ================================================================== *)

Definition ApiEphemeralActivityUpdateSchema : schema :=
  z.object [
    ("type", z.literal "activity");
    ("id", z.string);
    ("active", z.boolean);
    ("activeAt", z.number);
    ("thinking", z.boolean)
  ].

Definition ApiEphemeralUsageUpdateSchema : schema :=
  z.object [
    ("type", z.literal "usage");
    ("id", z.string);
    ("key", z.string);
    ("timestamp", z.number);
    ("tokens", z.object [
        ("total", z.number);
        ("input", z.number);
        ("output", z.number);
        ("cache_creation", z.number);
        ("cache_read", z.number)
      ]);
    ("cost", z.object [
        ("total", z.number);
        ("input", z.number);
        ("output", z.number)
      ])
  ].

Definition ApiEphemeralMachineActivityUpdateSchema : schema :=
  z.object [
    ("type", z.literal "machine-activity");
    ("id", z.string);
    ("active", z.boolean);
    ("activeAt", z.number)
  ].

Definition ApiEphemeralMachineStatusUpdateSchema : schema :=
  z.object [
    ("type", z.literal "machine-status");
    ("machineId", z.string);
    ("online", z.boolean);
    ("timestamp", z.number)
  ].

Definition ApiEphemeralUpdateSchema : schema :=
  z.union [
    ApiEphemeralActivityUpdateSchema;
    ApiEphemeralUsageUpdateSchema;
    ApiEphemeralMachineActivityUpdateSchema;
    ApiEphemeralMachineStatusUpdateSchema
  ].

Definition EphemeralPayloadSchema : schema := ApiEphemeralUpdateSchema.

(* ================================================================== *)
(** ** The earlier revisions of session.ts and machine.ts              *)
(* ================================================================== *)

(** The sources also hold the revision of [session.ts] that names the
    session identifier [id] and the revision of [machine.ts] without
    length constraints and without [delete-machine]; [index.ts]
    composes the same thirteen names over them. *)
Module Legacy.

Definition ApiUpdateNewSessionSchema : schema :=
  z.object [
    ("t", z.literal "new-session");
    ("id", z.string);
    ("seq", z.number);
    ("metadata", z.string);
    ("metadataVersion", z.number);
    ("agentState", z.string .> zm.nullable);
    ("agentStateVersion", z.number);
    ("dataEncryptionKey", z.string .> zm.nullable);
    ("active", z.boolean);
    ("activeAt", z.number);
    ("createdAt", z.number);
    ("updatedAt", z.number)
  ].

Definition ApiUpdateSessionStateSchema : schema :=
  z.object [
    ("t", z.literal "update-session");
    ("id", z.string);
    ("agentState", NullableVersionedValueSchema .> zm.nullish);
    ("metadata", NullableVersionedValueSchema .> zm.nullish)
  ].

Definition ApiNewMachineSchema : schema :=
  z.object [
    ("t", z.literal "new-machine");
    ("machineId", z.string);
    ("seq", z.number);
    ("metadata", z.string);
    ("metadataVersion", z.number);
    ("daemonState", z.string .> zm.nullable);
    ("daemonStateVersion", z.number);
    ("dataEncryptionKey", z.string .> zm.nullable);
    ("active", z.boolean);
    ("activeAt", z.number);
    ("createdAt", z.number);
    ("updatedAt", z.number)
  ].

Definition ApiUpdateMachineStateSchema : schema :=
  z.object [
    ("t", z.literal "update-machine");
    ("machineId", z.string);
    ("metadata", VersionedValueSchema .> zm.optional);
    ("daemonState", VersionedValueSchema .> zm.optional);
    ("active", z.boolean .> zm.optional);
    ("activeAt", z.number .> zm.optional)
  ].

Definition ApiUpdateSchema : schema :=
  z.discriminatedUnion "t" [
    ApiUpdateNewMessageSchema;
    ApiUpdateNewSessionSchema;
    ApiDeleteSessionSchema;
    ApiUpdateSessionStateSchema;
    ApiUpdateAccountSchema;
    ApiUpdateMachineStateSchema;
    ApiNewMachineSchema;
    ApiNewArtifactSchema;
    ApiUpdateArtifactSchema;
    ApiDeleteArtifactSchema;
    ApiRelationshipUpdatedSchema;
    ApiNewFeedPostSchema;
    ApiKvBatchUpdateSchema
  ].

End Legacy.

(* ================================================================== *)
(** ** helpers.ts: the identifier accessors                            *)
(* ================================================================== *)

(** What a [get...Id] call comes to: the identifier it returns, or the
    invariant violation that stops the caller. *)
Inductive Outcome : Type :=
| Returned (id : value)
| InvariantViolation.

(** Modelled from the spec: [helpers.ts] is not among the sources (its
    test file [helpers.test.ts] is).  The spec's table of the variants
    that carry a session identifier, all under the field [sid]. *)
Definition SESSION_ID_UPDATE_TYPES : list string :=
  ["new-session"; "update-session"; "delete-session"; "archive-session";
   "new-message"].

(** Modelled from the spec: [helpers.ts] is not among the sources.  The
    spec's table of the variants that carry a machine identifier, all
    under the field [machineId]. *)
Definition MACHINE_ID_UPDATE_TYPES : list string :=
  ["new-machine"; "update-machine"; "delete-machine"].

(** Modelled from the spec: [helpers.ts] is not among the sources.  The
    shared body of the two predicates: "true iff the value's
    discriminator is one of the statically known variants that carries
    that identifier". *)
Definition discriminator_in (types : list string) (update : value) : bool :=
  match get "t" update with
  | VStr t => mem t types
  | _ => false
  end.

(** Modelled from the spec: [helpers.ts] is not among the sources.
    [hasSessionId(value) -> boolean]. *)
Definition hasSessionId (update : value) : bool :=
  discriminator_in SESSION_ID_UPDATE_TYPES update.

(** Modelled from the spec: [helpers.ts] is not among the sources.
    [getSessionId(value) -> string]: the [sid] of a carrying variant;
    on any other value "a programming-error fault (fails loudly, e.g.
    via invariant violation), never a silent empty string". *)
Definition getSessionId (update : value) : Outcome :=
  if hasSessionId update then Returned (get "sid" update)
  else InvariantViolation.

(** Modelled from the spec: [helpers.ts] is not among the sources.
    [tryGetSessionId(value) -> string | undefined]: "returns the
    identifier if present, undefined otherwise". *)
Definition tryGetSessionId (update : value) : value :=
  if hasSessionId update then get "sid" update else VUndefined.

(** Modelled from the spec: [helpers.ts] is not among the sources.
    [hasMachineId(value) -> boolean]. *)
Definition hasMachineId (update : value) : bool :=
  discriminator_in MACHINE_ID_UPDATE_TYPES update.

(** Modelled from the spec: [helpers.ts] is not among the sources.
    [getMachineId(value) -> string], with the same contract as
    [getSessionId]. *)
Definition getMachineId (update : value) : Outcome :=
  if hasMachineId update then Returned (get "machineId" update)
  else InvariantViolation.

(** Modelled from the spec: [helpers.ts] is not among the sources.
    [tryGetMachineId(value) -> string | undefined]. *)
Definition tryGetMachineId (update : value) : value :=
  if hasMachineId update then get "machineId" update else VUndefined.

(** Whether a variant schema has a field of the given name in its
    shape ("structurally contains"). *)
Definition has_field (key : string) (variant : schema) : bool :=
  match variant with
  | ZObject shape _ => mem key (map fst shape)
  | _ => false
  end.

(** The shape of an object schema. *)
Definition shape_of (s : schema) : list (string * schema) :=
  match s with
  | ZObject shape _ => shape
  | _ => []
  end.

(** The options of a union schema. *)
Definition options_of (s : schema) : list schema :=
  match s with
  | ZUnion options | ZDiscriminatedUnion _ options => options
  | _ => []
  end.

(* ================================================================== *)
(** ** lint-rules/src/rules/github-casing.js                           *)
(* ================================================================== *)

(** [String.prototype.startsWith]. *)
Fixpoint startsWith (searchString s : string) : bool :=
  match searchString, s with
  | EmptyString, _ => true
  | String a rest, String b s' => Ascii.eqb a b && startsWith rest s'
  | String _ _, EmptyString => false
  end.

(** [String.prototype.includes]. *)
Fixpoint includes (searchString s : string) : bool :=
  startsWith searchString s
  || match s with
     | EmptyString => false
     | String _ s' => includes searchString s'
     end.

(** Case folding of the [i] flag: only the letters A to Z and a to z
    are identified with one another. *)
Definition fold_case (c : ascii) : ascii :=
  let n := nat_of_ascii c in
  if Nat.leb 65 n && Nat.leb n 90 then ascii_of_nat (n + 32) else c.

(** The pattern text matches at the start of [s], ignoring case. *)
Fixpoint matches_here_i (pattern s : string) : bool :=
  match pattern, s with
  | EmptyString, _ => true
  | String a rest, String b s' =>
      Ascii.eqb (fold_case a) (fold_case b) && matches_here_i rest s'
  | String _ _, EmptyString => false
  end.

Fixpoint skip (n : nat) (s : string) : string :=
  match n, s with
  | S k, String _ s' => skip k s'
  | _, _ => s
  end.

(** [/Github(?!ub)/i.test(s)]: at some position the text [Github]
    matches, ignoring case, and is not followed there by [ub]. *)
Fixpoint Github_not_ub_i_test (s : string) : bool :=
  (matches_here_i "Github" s && negb (matches_here_i "ub" (skip 6 s)))
  || match s with
     | EmptyString => false
     | String _ s' => Github_not_ub_i_test s'
     end.

Definition hasIncorrectGithubCasing (name : string) : bool :=
  Github_not_ub_i_test name
  && includes "Github" name
  && negb (includes "GitHub" name).

(** [name.replace(/Github/g, 'GitHub')]; [pending] counts the
    characters of a match just replaced that are still to be passed
    over. *)
Fixpoint replace_Github (pending : nat) (s : string) : string :=
  match s with
  | EmptyString => EmptyString
  | String c s' =>
      match pending with
      | S k => replace_Github k s'
      | O =>
          if startsWith "Github" s
          then ("GitHub" ++ replace_Github 5 s')%string
          else String c (replace_Github 0 s')
      end
  end.

Definition fixGithubCasing (name : string) : string := replace_Github 0 name.

(** One call of [context.report]. *)
Record Report : Type := {
  messageId : string;
  data_name : string;
  fix_text : string
}.

(** [reportIncorrectCasing(node)] on the identifier node of a
    type-like declaration: the reports it files. *)
Definition reportIncorrectCasing (name : string) : list Report :=
  if hasIncorrectGithubCasing name
  then [ {| messageId := "incorrectCasing";
            data_name := name;
            fix_text := fixGithubCasing name |} ]
  else [].

(** Sample limits for concrete evaluations, of the magnitudes the
    specification names (identifiers of a few hundred characters,
    encrypted blobs of tens of kilobytes). *)
Definition sample_limits : StringLimits :=
  {| ID_MAX := 256; ENCRYPTED_STATE_MAX := 65536; DATA_ENCRYPTION_KEY_MAX := 1024 |}.

(** The discriminator values of [ApiUpdate['t']], in the order of the
    union's options. *)
Definition ApiUpdateType : list string :=
  ["new-message"; "new-session"; "delete-session"; "update-session";
   "update-account"; "update-machine"; "new-machine"; "new-artifact";
   "update-artifact"; "delete-artifact"; "relationship-updated";
   "new-feed-post"; "kv-batch-update"].

(** A result with its issues forgotten: the status and the output. *)
Inductive Status : Type := st_valid | st_dirty | st_aborted.

Definition status (r : ParseReturn) : Status :=
  match r with
  | Valid _ => st_valid
  | Dirty _ _ => st_dirty
  | Aborted _ => st_aborted
  end.

Definition outline (r : ParseReturn) : Status * value := (status r, value_of r).

(** One pair with the issues of its value forgotten. *)
Definition pair_outline (pr : pair) : string * (Status * value) * bool :=
  (pair_key pr, outline (pair_value pr), alwaysSet pr).

(** A schema none of whose strings carries a length check. *)
Fixpoint check_free (s : schema) : bool :=
  match s with
  | ZString mn mx =>
      match mn, mx with None, None => true | _, _ => false end
  | ZNumber | ZBoolean | ZLiteral _ | ZEnum _ => true
  | ZObject shape _ => forallb (fun entry => check_free (snd entry)) shape
  | ZArray element => check_free element
  | ZOptional inner | ZNullable inner => check_free inner
  | ZUnion options | ZDiscriminatedUnion _ options => forallb check_free options
  end.

(** The first valid result of a list, and the issue lists that
    [ZodUnion] gathers from the others. *)
Definition first_valid (results : list ParseReturn) : option value :=
  match find is_valid results with
  | Some r => Some (value_of r)
  | None => None
  end.

Definition unionErrors (results : list ParseReturn) : list (list issue) :=
  fold_left push_issues (map issues_of results) [].

Definition is_success (r : SafeParseReturn) : bool :=
  match r with success _ => true | failure _ => false end.

Definition error_codes (r : SafeParseReturn) : list ZodIssueCode :=
  match r with success _ => [] | failure l => map code l end.

(* ================================================================== *)
(** ** Values the properties are stated on                             *)
(* ================================================================== *)

(** The message of the specification's first scenario, around a given
    encrypted-content envelope. *)
Definition message_with (content : value) : value :=
  VObj [("id", VStr "msg-001"); ("seq", VNum 1); ("content", content);
        ("createdAt", VNum 1700000000000)].

Definition new_message_update (sid : string) (content : value) : value :=
  VObj [("t", VStr "new-message"); ("sid", VStr sid);
        ("message", message_with content)].

(** The first scenario as the specification writes it, and with the
    envelope keys that [EncryptedContentSchema] declares. *)
Definition scenario1_as_specified : value :=
  new_message_update "session-789"
    (VObj [("tag", VStr "encrypted"); ("ciphertext", VStr "abc")]).

Definition scenario1 : value :=
  new_message_update "session-789"
    (VObj [("t", VStr "encrypted"); ("c", VStr "abc")]).

Definition delete_session_update (sid : string) : value :=
  VObj [("t", VStr "delete-session"); ("sid", VStr sid)].

(** The [newSessionUpdate] fixture of [helpers.test.ts] with a given
    [sid], [Date.now()] read as [0]. *)
Definition new_session_update (sid : string) : value :=
  VObj [("t", VStr "new-session"); ("sid", VStr sid); ("seq", VNum 1);
        ("metadata", VStr "encrypted-metadata"); ("metadataVersion", VNum 1);
        ("agentState", VNull); ("agentStateVersion", VNum 0);
        ("dataEncryptionKey", VNull); ("active", VBool true);
        ("activeAt", VNum 0); ("createdAt", VNum 0); ("updatedAt", VNum 0)].

(** The second scenario of the specification. *)
Definition new_machine_update (machineId : string) : value :=
  VObj [("t", VStr "new-machine"); ("machineId", VStr machineId); ("seq", VNum 1);
        ("metadata", VStr "enc"); ("metadataVersion", VNum 1);
        ("daemonState", VNull); ("daemonStateVersion", VNum 0);
        ("dataEncryptionKey", VNull); ("active", VBool true);
        ("activeAt", VNum 0); ("createdAt", VNum 0); ("updatedAt", VNum 0)].

(** The examples in the doc comments of [ApiArchiveSessionSchema] and
    [ApiDeleteMachineSchema]. *)
Definition archive_session_update : value :=
  VObj [("t", VStr "archive-session"); ("sid", VStr "session_abc123");
        ("archivedAt", VNum 1700000000000);
        ("archiveReason", VStr "revival_failed")].

Definition delete_machine_update : value :=
  VObj [("t", VStr "delete-machine"); ("machineId", VStr "machine_laptop1")].

(** The [accountUpdate] fixture of [helpers.test.ts]. *)
Definition accountUpdate : value :=
  VObj [("t", VStr "update-account"); ("id", VStr "user-123");
        ("firstName", VStr "Jane")].

Definition bogus_variant : value :=
  VObj [("t", VStr "bogus-variant"); ("foo", VStr "bar")].

(** The ephemeral fixtures of [helpers.test.ts] ([Date.now()] read as
    [0]; the usage fixture with every counter the schema lists). *)
Definition activityEphemeral : value :=
  VObj [("type", VStr "activity"); ("sid", VStr "session-activity");
        ("active", VBool true); ("activeAt", VNum 0); ("thinking", VBool false)].

Definition usage_counters (session_key : string) : value :=
  VObj [("type", VStr "usage"); (session_key, VStr "session-usage");
        ("key", VStr "cost"); ("timestamp", VNum 0);
        ("tokens", VObj [("total", VNum 100); ("input", VNum 60);
                         ("output", VNum 40); ("cache_creation", VNum 0);
                         ("cache_read", VNum 0)]);
        ("cost", VObj [("total", VNum 1); ("input", VNum 1); ("output", VNum 0)])].

Definition usageEphemeral : value := usage_counters "sid".

Definition machineActivityEphemeral : value :=
  VObj [("type", VStr "machine-activity"); ("machineId", VStr "machine-activity-id");
        ("active", VBool true); ("activeAt", VNum 0)].

Definition machineStatusEphemeral : value :=
  VObj [("type", VStr "machine-status"); ("machineId", VStr "machine-status-id");
        ("online", VBool true); ("timestamp", VNum 0)].

Definition machineDisconnectedEphemeral : value :=
  VObj [("type", VStr "machine-disconnected");
        ("machineId", VStr "machine-disconnected-id");
        ("reason", VStr "disconnected_by_user"); ("timestamp", VNum 0)].

(** The same events with the identifier under the key [id]. *)
Definition activity_with_id : value :=
  VObj [("type", VStr "activity"); ("id", VStr "session-activity");
        ("active", VBool true); ("activeAt", VNum 0); ("thinking", VBool false)].

Definition machine_activity_with_id : value :=
  VObj [("type", VStr "machine-activity"); ("id", VStr "machine-activity-id");
        ("active", VBool true); ("activeAt", VNum 0)].

(** An update payload around a given body. *)
Definition update_payload (body : value) : value :=
  VObj [("id", VStr "update-1"); ("seq", VNum 1); ("body", body);
        ("createdAt", VNum 1700000000000)].

(** [count] copies of the character [x]. *)
Fixpoint repeat_x (count : nat) : string :=
  match count with
  | O => EmptyString
  | S n => String "x" (repeat_x n)
  end.

(* ================================================================== *)
(** ** lint-rules/src/rules/github-casing.js: the visitor              *)
(* ================================================================== *)

(** A declaration node as the rule reads it: [node.type] and the name
    of [node.id], when the declaration has an identifier. *)
Record DeclarationNode : Type := {
  node_type : string;
  node_id : option string
}.

Definition typeLikeTypes : list string :=
  ["TSTypeAliasDeclaration"; "TSInterfaceDeclaration"; "ClassDeclaration";
   "TSEnumDeclaration"].

Definition isTypeLikeDeclaration (node : DeclarationNode) : bool :=
  mem (node_type node) typeLikeTypes.

(** Each handler of the visitor: [if (node.id) reportIncorrectCasing(node.id)]. *)
Definition report_declaration_id (node : DeclarationNode) : list Report :=
  match node_id node with
  | Some name => reportIncorrectCasing name
  | None => []
  end.

(** The visitor object that [create] returns, one handler per node
    type. *)
Definition github_casing_visitor : list (string * (DeclarationNode -> list Report)) :=
  [("TSTypeAliasDeclaration", report_declaration_id);
   ("TSInterfaceDeclaration", report_declaration_id);
   ("ClassDeclaration", report_declaration_id);
   ("TSEnumDeclaration", report_declaration_id)].

(** The traversal calls the handler registered for the node's type,
    if there is one. *)
Definition github_casing_on (node : DeclarationNode) : list Report :=
  match assoc (node_type node) github_casing_visitor with
  | Some handler => handler node
  | None => []
  end.

(* ================================================================== *)
(** ** lint-rules/src/rules/protocol-helpers.js                        *)
(* ================================================================== *)

(** An expression node as the rule reads it: [type], [name] (of an
    identifier), [object] and [property] (of a member expression). *)
Inductive EsNode : Type :=
| mkEsNode (type : string) (name : option string)
           (object property : option EsNode).

Definition es_type (n : EsNode) : string :=
  match n with mkEsNode t _ _ _ => t end.
Definition es_name (n : EsNode) : option string :=
  match n with mkEsNode _ nm _ _ => nm end.
Definition es_object (n : EsNode) : option EsNode :=
  match n with mkEsNode _ _ o _ => o end.
Definition es_property (n : EsNode) : option EsNode :=
  match n with mkEsNode _ _ _ pr => pr end.

(** [filename] is [undefined] ([None]) or a string; the empty string
    is falsy as well. *)
Definition isTestFile (filename : option string) : bool :=
  match filename with
  | None => false
  | Some EmptyString => false
  | Some f =>
      includes ".spec." f || includes ".test." f
      || includes "__tests__" f || includes "__mocks__" f
  end.

Definition name_is (n : EsNode) (expected : string) : bool :=
  match es_name n with
  | Some nm => String.eqb nm expected
  | None => false
  end.

Definition matchesBodyPropertyPattern (node : EsNode) (propertyName : string) : bool :=
  match es_property node with
  | None => false
  | Some pr =>
      if negb (name_is pr propertyName) then false
      else
        match es_object node with
        | None => false
        | Some objectNode =>
            if negb (String.eqb (es_type objectNode) "MemberExpression") then false
            else
              match es_property objectNode with
              | None => false
              | Some bodyProperty =>
                  if negb (name_is bodyProperty "body") then false else true
              end
        end
  end.

(** The [MemberExpression] handler; a report is its [messageId]. *)
Definition on_MemberExpression (node : EsNode) : list string :=
  if matchesBodyPropertyPattern node "sid" then ["avoidDirectSid"]
  else if matchesBodyPropertyPattern node "machineId" then ["avoidDirectMachineId"]
  else [].

(** [create(context)]: no handler at all for a test file, else the
    one for member expressions. *)
Definition protocol_helpers_visitor (filename : option string)
    : list (string * (EsNode -> list string)) :=
  if isTestFile filename then []
  else [("MemberExpression", on_MemberExpression)].

Definition protocol_helpers_on (filename : option string) (node : EsNode)
    : list string :=
  match assoc (es_type node) (protocol_helpers_visitor filename) with
  | Some handler => handler node
  | None => []
  end.

(** [<object>.body.<propertyName>] as the parser builds it. *)
Definition member (object : EsNode) (propertyName : string) : EsNode :=
  mkEsNode "MemberExpression" None (Some object)
           (Some (mkEsNode "Identifier" (Some propertyName) None None)).

(* ================================================================== *)
(** ** errors/src/index.ts and errors/src/safeError.ts                 *)
(* ================================================================== *)

Module Errors.

(** An [Error] that is not an [AppError]: its message, its stack and
    its [status] property ([undefined] when it has none). *)
Record JsError : Type := {
  message : string;
  stack : option string;
  status : value
}.

Record AppErrorOptions : Type := {
  opt_canTryAgain : option bool;
  opt_cause : option JsError;
  opt_context : option (list (string * value))
}.

Record AppError : Type := {
  code : string;
  app_message : string;
  app_name : string;
  canTryAgain : bool;
  cause : option JsError;
  context : option (list (string * value));
  app_stack : option string
}.

(** [new AppError(code, message, options)]; the stack is the one the
    engine captures at construction. *)
Definition new_AppError (captured_stack : option string) (code_ message_ : string)
    (options : option AppErrorOptions) : AppError :=
  {| code := code_;
     app_message := message_;
     app_name := "AppError";
     canTryAgain :=
       match options with
       | Some o => match opt_canTryAgain o with Some b => b | None => false end
       | None => false
       end;
     cause := match options with Some o => opt_cause o | None => None end;
     context := match options with Some o => opt_context o | None => None end;
     app_stack := captured_stack |}.

Record AppErrorJSON : Type := {
  json_code : string;
  json_message : string;
  json_name : string;
  json_canTryAgain : bool;
  json_cause : option string;
  json_context : option (list (string * value));
  json_stack : option string
}.

Record SafeAppErrorJSON : Type := {
  safe_code : string;
  safe_message : string;
  safe_canTryAgain : bool
}.

(** A string is truthy when it is not empty. *)
Definition truthy_string (s : string) : bool :=
  match s with EmptyString => false | _ => true end.

Definition toJSON (e : AppError) : AppErrorJSON :=
  {| json_code := code e;
     json_message := app_message e;
     json_name := app_name e;
     json_canTryAgain := canTryAgain e;
     json_cause :=
       match cause e with
       | Some c => if truthy_string (message c) then Some (message c) else None
       | None => None
       end;
     json_context := context e;
     json_stack :=
       match app_stack e with
       | Some st => if truthy_string st then Some st else None
       | None => None
       end |}.

Definition toSafeJSON (e : AppError) : SafeAppErrorJSON :=
  {| safe_code := code e;
     safe_message := app_message e;
     safe_canTryAgain := canTryAgain e |}.

(** What can be thrown and caught: an [AppError], another [Error], or
    any other value. *)
Inductive Thrown : Type :=
| ThrownAppError (e : AppError)
| ThrownError (e : JsError)
| ThrownValue (v : value).

Definition isAppError (err : Thrown) : bool :=
  match err with ThrownAppError _ => true | _ => false end.

(** [AppError.fromUnknown]: the cause is kept when the value is an
    [Error] (an [AppError] is one; as a cause only its message and
    stack are read). *)
Definition as_cause (error : Thrown) : option JsError :=
  match error with
  | ThrownError e => Some e
  | ThrownAppError e =>
      Some {| message := app_message e; stack := app_stack e; status := VUndefined |}
  | ThrownValue _ => None
  end.

Definition fromUnknown (captured_stack : option string) (code_ message_ : string)
    (error : Thrown) (canTryAgain_ : option bool) : AppError :=
  new_AppError captured_stack code_ message_
    (Some {| opt_canTryAgain :=
               Some (match canTryAgain_ with Some b => b | None => false end);
             opt_cause := as_cause error;
             opt_context := None |}).

Definition withCause (captured_stack : option string) (code_ message_ : string)
    (cause_ : option JsError) : AppError :=
  new_AppError captured_stack code_ message_
    (Some {| opt_canTryAgain := None; opt_cause := cause_; opt_context := None |}).

(** The values of [ErrorCodes], in the order they are declared. *)
Definition ErrorCodes : list string :=
  ["AUTH_FAILED"; "NOT_AUTHENTICATED"; "TOKEN_EXPIRED"; "ENCRYPTION_ERROR";
   "DECRYPTION_FAILED"; "INVALID_INPUT"; "VALIDATION_FAILED"; "NOT_FOUND";
   "INTERNAL_ERROR"; "CONNECT_FAILED"; "NO_RESPONSE"; "REQUEST_CONFIG_ERROR";
   "TOKEN_EXCHANGE_FAILED"; "SESSION_NOT_FOUND"; "DAEMON_START_FAILED";
   "PROCESS_TIMEOUT"; "VERSION_MISMATCH"; "LOCK_ACQUISITION_FAILED";
   "DIRECTORY_REQUIRED"; "RESOURCE_NOT_FOUND"; "NONCE_TOO_SHORT";
   "OPERATION_CANCELLED"; "OPERATION_FAILED"; "UNSUPPORTED_OPERATION";
   "SESSION_REVIVAL_FAILED"; "QUEUE_CLOSED"; "ALREADY_STARTED"; "UNKNOWN_ERROR";
   "INVALID_KEY"; "SOCKET_NOT_CONNECTED"; "RPC_CANCELLED"; "RPC_FAILED";
   "SYNC_FAILED"; "API_ERROR"; "FETCH_FAILED"; "FETCH_ABORTED"; "TIMEOUT";
   "VERSION_CONFLICT"; "ALREADY_EXISTS"; "NOT_CONFIGURED"; "PRODUCT_NOT_FOUND";
   "SERVICE_ERROR"; "SERVICE_NOT_CONNECTED"; "AUTH_NOT_INITIALIZED";
   "INVARIANT_VIOLATION"; "CONFIG_ERROR"].

Definition clientErrors : list string :=
  ["NOT_FOUND"; "SESSION_NOT_FOUND"; "RESOURCE_NOT_FOUND"; "PRODUCT_NOT_FOUND";
   "INVALID_INPUT"; "VALIDATION_FAILED"; "INVALID_KEY"; "NONCE_TOO_SHORT";
   "DIRECTORY_REQUIRED"].

Definition authErrors : list string :=
  ["NOT_AUTHENTICATED"; "AUTH_FAILED"; "AUTH_NOT_INITIALIZED"; "TOKEN_EXPIRED";
   "TOKEN_EXCHANGE_FAILED"].

Definition conflictErrors : list string :=
  ["ALREADY_EXISTS"; "ALREADY_STARTED"; "VERSION_CONFLICT"; "VERSION_MISMATCH"].

Definition getStatusCodeFromErrorCode (code_ : string) : Z :=
  if mem code_ clientErrors then
    (if includes "NOT_FOUND" code_ then 404 else 400)%Z
  else if mem code_ authErrors then 401%Z
  else if mem code_ conflictErrors then 409%Z
  else 500%Z.

Definition ErrorStatusCode : list Z :=
  [400; 401; 403; 404; 409; 500; 502; 503]%Z.

Fixpoint memZ (x : Z) (l : list Z) : bool :=
  match l with
  | [] => false
  | y :: rest => Z.eqb x y || memZ x rest
  end.

(** The [status] an error or a thrown object carries, when it is a
    number ([typeof err.status === 'number'], which [NaN] is too). *)
Definition numeric_status (err : Thrown) : option value :=
  let of_value v :=
    match v with
    | VNum _ | VNaN => Some v
    | _ => None
    end in
  match err with
  | ThrownAppError _ => None
  | ThrownError e => of_value (status e)
  | ThrownValue (VObj props) =>
      if has_prop "status" props then of_value (prop "status" props) else None
  | ThrownValue _ => None
  end.

Definition getErrorStatusCode (err : Thrown) : Z :=
  match err with
  | ThrownAppError e => getStatusCodeFromErrorCode (code e)
  | _ =>
      match numeric_status err with
      | Some (VNum st) => if memZ st ErrorStatusCode then st else 500%Z
      | Some _ => 500%Z
      | None => 500%Z
      end
  end.

Record SafeErrorResponse : Type := {
  resp_error : string;
  resp_code : option string;
  resp_requestId : option string;
  resp_timestamp : string;
  resp_canTryAgain : option bool
}.

(** The arguments of the one call of the logger. *)
Record LoggerCall : Type := {
  log_requestId : option string;
  log_message : string;
  log_stack : option string;
  log_context : option (list (string * value))
}.

Section SafeError.

(** What the engine supplies: [String(err)] for a thrown value that is
    no [Error], the stack of the [Error] made from it, and the clock
    reading [new Date().toISOString()]. *)
Variable String_ : value -> string.
Variable new_Error_stack : option string.
Variable now_ISO : string.

Definition getSafeMessage (error : Thrown) (isDevelopment : bool) : string :=
  match error with
  | ThrownAppError e => app_message e
  | ThrownError e =>
      if isDevelopment then message e else "An unexpected error occurred"
  | ThrownValue v =>
      if isDevelopment then String_ v else "An unexpected error occurred"
  end.

(** [err instanceof Error ? err : new Error(String(err))]. *)
Definition normalize (err : Thrown) : Thrown :=
  match err with
  | ThrownValue v =>
      ThrownError {| message := String_ v; stack := new_Error_stack;
                     status := VUndefined |}
  | _ => err
  end.

Definition thrown_message (error : Thrown) : string :=
  match error with
  | ThrownAppError e => app_message e
  | ThrownError e => message e
  | ThrownValue v => String_ v
  end.

Definition thrown_stack (error : Thrown) : option string :=
  match error with
  | ThrownAppError e => app_stack e
  | ThrownError e => stack e
  | ThrownValue _ => None
  end.

(** [createSafeError(err, { requestId, isDevelopment })]: the response,
    and the call made to the logger. *)
Definition createSafeError (err : Thrown) (requestId : option string)
    (isDevelopment : option bool) : SafeErrorResponse * LoggerCall :=
  let dev := match isDevelopment with Some b => b | None => false end in
  let error := normalize err in
  let context_ :=
    match error with ThrownAppError e => context e | _ => None end in
  let call :=
    {| log_requestId := requestId;
       log_message := thrown_message error;
       log_stack := thrown_stack error;
       log_context := context_ |} in
  let response :=
    {| resp_error := getSafeMessage error dev;
       resp_timestamp := now_ISO;
       resp_code :=
         match error with ThrownAppError e => Some (code e) | _ => None end;
       resp_canTryAgain :=
         match error with
         | ThrownAppError e => if canTryAgain e then Some true else None
         | _ => None
         end;
       resp_requestId :=
         match requestId with
         | Some r => if truthy_string r then Some r else None
         | None => None
         end |} in
  (response, call).

End SafeError.

End Errors.

(* ================================================================== *)
(** ** Notions the further properties are stated with                  *)
(* ================================================================== *)

(** [Object.keys] of a value. *)
Definition keys_of (v : value) : list string :=
  match v with
  | VObj props => map fst props
  | _ => []
  end.

(** Schemas made of stripping objects, arrays, optional and nullable
    wrappers and discriminated unions, with the keys of every shape
    distinct and none of them [__proto__]. *)
Fixpoint stripping (s : schema) : bool :=
  match s with
  | ZString _ _ | ZNumber | ZBoolean | ZLiteral _ | ZEnum _ => true
  | ZObject shape unknownKeys =>
      match unknownKeys with strip => true | passthrough => false end
      && distinct (map fst shape)
      && negb (mem "__proto__" (map fst shape))
      && forallb (fun entry => stripping (snd entry)) shape
  | ZArray element => stripping element
  | ZOptional inner | ZNullable inner => stripping inner
  | ZUnion _ => false
  | ZDiscriminatedUnion _ options => forallb stripping options
  end.

(** [t] is [s] with some of its letters [h] written [H]. *)
Fixpoint capitalises_h (s t : string) : Prop :=
  match s, t with
  | EmptyString, EmptyString => True
  | String a s', String b t' =>
      (a = b \/ (a = "h"%char /\ b = "H"%char)) /\ capitalises_h s' t'
  | _, _ => False
  end.

(** No letter [H] in a string. *)
Fixpoint no_capital_H (s : string) : bool :=
  match s with
  | EmptyString => true
  | String c s' => negb (Ascii.eqb c "H") && no_capital_H s'
  end.

(** One entry of the [changes] of a kv-batch-update, and the update
    around a list of them. *)
Definition kv_change (entry : string * option string * Z) : value :=
  let '(key, val, version) := entry in
  VObj [("key", VStr key);
        ("value", match val with Some s => VStr s | None => VNull end);
        ("version", VNum version)].

Definition kv_batch_update (changes : list (string * option string * Z)) : value :=
  VObj [("t", VStr "kv-batch-update"); ("changes", VArr (map kv_change changes))].

(** The first scenario with a field that no schema names. *)
Definition scenario1_with_extra : value :=
  VObj [("t", VStr "new-message"); ("sid", VStr "session-789");
        ("message", message_with (VObj [("t", VStr "encrypted"); ("c", VStr "abc")]));
        ("traceId", VStr "trace-1")].

(** A value with the fields of a delete-session update and those of
    a machine-status event. *)
Definition both_namespaces : value :=
  VObj [("t", VStr "delete-session"); ("sid", VStr "session-1");
        ("type", VStr "machine-status"); ("machineId", VStr "machine-1");
        ("online", VBool true); ("timestamp", VNum 0)].

(** An update-session that carries only its [sid]. *)
Definition update_session_update (sid : string) : value :=
  VObj [("t", VStr "update-session"); ("sid", VStr sid)].

(** A new-session update with the given identifier and encrypted
    fields. *)
Definition new_session_with (sid metadata : string)
    (agentState dataEncryptionKey : option string) : value :=
  let nullable_string o := match o with Some s => VStr s | None => VNull end in
  VObj [("t", VStr "new-session"); ("sid", VStr sid); ("seq", VNum 1);
        ("metadata", VStr metadata); ("metadataVersion", VNum 1);
        ("agentState", nullable_string agentState); ("agentStateVersion", VNum 0);
        ("dataEncryptionKey", nullable_string dataEncryptionKey);
        ("active", VBool true); ("activeAt", VNum 0); ("createdAt", VNum 0);
        ("updatedAt", VNum 0)].

Definition fits (limit : nat) (o : option string) : bool :=
  match o with
  | Some s => Nat.leb (String.length s) limit
  | None => true
  end.

(* ================================================================== *)
(** * Properties                                                       *)
(* ================================================================== *)

(** ** Induction over schemas, through the lists they nest            *)

Section schema_induction.
Variable P : schema -> Prop.
Hypothesis HString : forall mn mx, P (ZString mn mx).
Hypothesis HNumber : P ZNumber.
Hypothesis HBoolean : P ZBoolean.
Hypothesis HLiteral : forall lit, P (ZLiteral lit).
Hypothesis HEnum : forall values, P (ZEnum values).
Hypothesis HObject : forall shape unknownKeys,
    Forall (fun entry => P (snd entry)) shape -> P (ZObject shape unknownKeys).
Hypothesis HArray : forall element, P element -> P (ZArray element).
Hypothesis HOptional : forall inner, P inner -> P (ZOptional inner).
Hypothesis HNullable : forall inner, P inner -> P (ZNullable inner).
Hypothesis HUnion : forall options, Forall P options -> P (ZUnion options).
Hypothesis HDiscriminated : forall d options,
    Forall P options -> P (ZDiscriminatedUnion d options).

Fixpoint schema_nested_ind (s : schema) : P s :=
  match s with
  | ZString mn mx => HString mn mx
  | ZNumber => HNumber
  | ZBoolean => HBoolean
  | ZLiteral lit => HLiteral lit
  | ZEnum values => HEnum values
  | ZObject shape unknownKeys =>
      HObject shape unknownKeys
        ((fix over_shape (l : list (string * schema))
            : Forall (fun entry => P (snd entry)) l :=
            match l with
            | [] => Forall_nil _
            | entry :: rest =>
                Forall_cons entry (schema_nested_ind (snd entry)) (over_shape rest)
            end) shape)
  | ZArray element => HArray element (schema_nested_ind element)
  | ZOptional inner => HOptional inner (schema_nested_ind inner)
  | ZNullable inner => HNullable inner (schema_nested_ind inner)
  | ZUnion options =>
      HUnion options
        ((fix over_options (l : list schema) : Forall P l :=
            match l with
            | [] => Forall_nil _
            | o :: rest => Forall_cons o (schema_nested_ind o) (over_options rest)
            end) options)
  | ZDiscriminatedUnion d options =>
      HDiscriminated d options
        ((fix over_options (l : list schema) : Forall P l :=
            match l with
            | [] => Forall_nil _
            | o :: rest => Forall_cons o (schema_nested_ind o) (over_options rest)
            end) options)
  end.
End schema_induction.

(** ** Lists of strings and option maps                                *)

Lemma mem_In (x : string) (l : list string) : mem x l = true <-> In x l.
Proof.
  induction l as [|y l IH]; simpl.
  - split; [discriminate | tauto].
  - rewrite orb_true_iff, IH. split.
    + intros [H|H]; [left; symmetry; now apply String.eqb_eq | now right].
    + intros [H|H]; [left; subst; apply String.eqb_refl | now right].
Qed.

Lemma mem_false (x : string) (l : list string) : mem x l = false <-> ~ In x l.
Proof.
  rewrite <- mem_In. destruct (mem x l); split; intro H; congruence.
Qed.

Lemma assoc_app {A : Type} (k : string) (m1 m2 : list (string * A)) :
  assoc k (m1 ++ m2) =
  match assoc k m1 with Some a => Some a | None => assoc k m2 end.
Proof.
  induction m1 as [|[k' a] m1 IH]; simpl; [reflexivity|].
  destruct (String.eqb k k'); [reflexivity | exact IH].
Qed.

Lemma assoc_constant {A : Type} (k : string) (a : A) (vs : list string) :
  assoc k (map (fun v => (v, a)) vs) = if mem k vs then Some a else None.
Proof.
  induction vs as [|v vs IH]; simpl; [reflexivity|].
  destruct (String.eqb k v); simpl; [reflexivity | exact IH].
Qed.

Lemma Map_keys_optionsMap {A : Type} (d : string) (f : schema -> A)
    (options : list schema) :
  Map_keys (optionsMap d f options) = flat_map (discriminatorValues d) options.
Proof.
  unfold Map_keys, optionsMap.
  induction options as [|o options IH]; simpl; [reflexivity|].
  rewrite map_app, IH, map_map. simpl. now rewrite map_id.
Qed.

(** A hit in the options map is the payload of an option that claims
    the key. *)
Lemma assoc_optionsMap_Some {A : Type} (d : string) (f : schema -> A)
    (options : list schema) (k : string) (a : A) :
  assoc k (optionsMap d f options) = Some a ->
  exists o, In o options /\ In k (discriminatorValues d o) /\ a = f o.
Proof.
  unfold optionsMap.
  induction options as [|o options IH]; simpl; [discriminate|].
  rewrite assoc_app, assoc_constant.
  destruct (mem k (discriminatorValues d o)) eqn:E.
  - intros [= <-]. exists o. repeat split; [now left | now apply mem_In].
  - intros H. destruct (IH H) as (o' & Hin & Hk & ->).
    exists o'. repeat split; [now right | assumption].
Qed.

Lemma assoc_optionsMap_None {A : Type} (d : string) (f : schema -> A)
    (options : list schema) (k : string) :
  ~ In k (flat_map (discriminatorValues d) options) ->
  assoc k (optionsMap d f options) = None.
Proof.
  unfold optionsMap.
  induction options as [|o options IH]; simpl; [reflexivity|].
  intros H. rewrite assoc_app, assoc_constant.
  destruct (mem k (discriminatorValues d o)) eqn:E.
  - exfalso. apply H, in_or_app. left. now apply mem_In.
  - apply IH. intros Hin. apply H, in_or_app. now right.
Qed.

Lemma assoc_optionsMap_payload {A : Type} (d : string) (f : schema -> A)
    (options : list schema) (k : string) :
  assoc k (optionsMap d f options) =
  option_map f (assoc k (optionsMap d (fun o => o) options)).
Proof.
  unfold optionsMap.
  induction options as [|o options IH]; simpl; [reflexivity|].
  rewrite !assoc_app, !assoc_constant.
  destruct (mem k (discriminatorValues d o)); simpl; [reflexivity | exact IH].
Qed.

(** ** The discriminated union: a lookup, then the selected option     *)

(** [ZodDiscriminatedUnion._parse] on an object: the discriminator
    value is looked up in the options map; the option found parses the
    whole input, and a miss is the [invalid_union_discriminator] issue
    at the discriminator's path. *)
Lemma parse_discriminatedUnion (d : string) (options : list schema)
    (p : path) (data : list (string * value)) :
  parse (ZDiscriminatedUnion d options) p (VObj data) =
  match Map_get (prop d data) (optionsMap d (fun o => o) options) with
  | Some option_ => parse option_ p (VObj data)
  | None =>
      Aborted [invalid_union_discriminator
                 (flat_map (discriminatorValues d) options) (p ++ [Key d])]
  end.
Proof.
  simpl. rewrite Map_keys_optionsMap.
  destruct (prop d data); simpl; try reflexivity.
  rewrite assoc_optionsMap_payload.
  destruct (assoc s (optionsMap d (fun o => o) options)); reflexivity.
Qed.

Lemma parse_discriminatedUnion_Valid (d : string) (options : list schema)
    (p : path) (v r : value) :
  parse (ZDiscriminatedUnion d options) p v = Valid r ->
  exists data k option_,
    v = VObj data /\ prop d data = VStr k /\ In option_ options /\
    In k (discriminatorValues d option_) /\ parse option_ p v = Valid r.
Proof.
  destruct v as [| | | | | |items|data]; try discriminate.
  rewrite parse_discriminatedUnion.
  destruct (prop d data) as [| | | | |k| |] eqn:E; try discriminate.
  simpl.
  destruct (assoc k (optionsMap d (fun o => o) options)) as [o|] eqn:Ek;
    [|discriminate].
  intros H. apply assoc_optionsMap_Some in Ek as (o' & Hin & Hk & ->).
  now exists data, k, o'.
Qed.

Lemma parse_discriminatedUnion_unknown (d : string) (options : list schema)
    (p : path) (data : list (string * value)) :
  (forall k, prop d data = VStr k ->
             ~ In k (flat_map (discriminatorValues d) options)) ->
  parse (ZDiscriminatedUnion d options) p (VObj data) =
  Aborted [invalid_union_discriminator
             (flat_map (discriminatorValues d) options) (p ++ [Key d])].
Proof.
  intros H. rewrite parse_discriminatedUnion.
  destruct (prop d data) as [| | | | |k| |] eqn:E; try reflexivity.
  simpl. now rewrite (assoc_optionsMap_None d (fun o => o) options k (H k eq_refl)).
Qed.

Lemma parse_discriminatedUnion_selected (d : string) (options : list schema)
    (p : path) (data : list (string * value)) (k : string) (option_ : schema) :
  prop d data = VStr k ->
  assoc k (optionsMap d (fun o => o) options) = Some option_ ->
  parse (ZDiscriminatedUnion d options) p (VObj data) = parse option_ p (VObj data).
Proof.
  intros Hk Ho. rewrite parse_discriminatedUnion, Hk. simpl. now rewrite Ho.
Qed.

(** ** Objects                                                         *)

Lemma existsb_false_Forall {A : Type} (f : A -> bool) (l : list A) :
  existsb f l = false -> Forall (fun x => f x = false) l.
Proof.
  induction l as [|x l IH]; simpl; intros H; constructor;
    apply orb_false_iff in H; [tauto | apply IH; tauto].
Qed.

Lemma mergeObjectSync_Valid (pairs : list pair) (r : value) :
  mergeObjectSync pairs = Valid r ->
  r = VObj (finalObject pairs) /\
  Forall (fun pr => status (pair_value pr) = st_valid) pairs.
Proof.
  unfold mergeObjectSync.
  destruct (existsb (fun pr => is_aborted (pair_value pr)) pairs) eqn:Ea;
    [discriminate|].
  destruct (existsb (fun pr => is_dirty (pair_value pr)) pairs) eqn:Ed;
    [discriminate|].
  intros [= <-]. split; [reflexivity|].
  apply existsb_false_Forall in Ea, Ed.
  rewrite Forall_forall in *. intros pr Hin.
  specialize (Ea pr Hin). specialize (Ed pr Hin).
  destruct (pair_value pr); simpl in *; congruence.
Qed.

Lemma prop_app_found (k : string) (l1 l2 : list (string * value)) :
  has_prop k l1 = true -> prop k (l1 ++ l2) = prop k l1.
Proof.
  induction l1 as [|[k' v] l1 IH]; simpl; [discriminate|].
  destruct (String.eqb k k'); simpl; [reflexivity | exact IH].
Qed.

Lemma prop_app_missing (k : string) (l1 l2 : list (string * value)) :
  has_prop k l1 = false -> prop k (l1 ++ l2) = prop k l2.
Proof.
  induction l1 as [|[k' v] l1 IH]; simpl; [reflexivity|].
  destruct (String.eqb k k'); simpl; [discriminate | exact IH].
Qed.

Lemma prop_missing (k : string) (l : list (string * value)) :
  has_prop k l = false -> prop k l = VUndefined.
Proof.
  induction l as [|[k' v] l IH]; simpl; [reflexivity|].
  destruct (String.eqb k k'); simpl; [discriminate | exact IH].
Qed.

(** The final object has no key that no pair has. *)
Lemma finalObject_missing (k : string) (pairs : list pair) :
  mem k (map pair_key pairs) = false -> has_prop k (finalObject pairs) = false.
Proof.
  induction pairs as [|pr pairs IH]; simpl; [reflexivity|].
  intros H. apply orb_false_iff in H as [Hk Hrest].
  match goal with |- context [if ?c then _ else _] => destruct c end; simpl.
  - now rewrite Hk, IH.
  - now apply IH.
Qed.

(** Reading a key back from the final object gives the parsed value
    of the (one) pair with that key. *)
Lemma finalObject_prop (pairs : list pair) (pr : pair) :
  distinct (map pair_key pairs) = true ->
  In pr pairs ->
  pair_key pr <> "__proto__" ->
  prop (pair_key pr) (finalObject pairs) = value_of (pair_value pr).
Proof.
  induction pairs as [|pr0 pairs IH]; simpl; [tauto|].
  intros Hd [->|Hin] Hproto; apply andb_true_iff in Hd as [Hfresh Hd].
  - apply negb_true_iff in Hfresh.
    apply String.eqb_neq in Hproto. rewrite Hproto. simpl.
    destruct (negb match value_of (pair_value pr) with
                   | VUndefined => true | _ => false end
              || alwaysSet pr) eqn:Ekeep; simpl.
    + now rewrite String.eqb_refl.
    + apply orb_false_iff in Ekeep as [Eu _]. apply negb_false_iff in Eu.
      rewrite prop_missing by now apply finalObject_missing.
      destruct (value_of (pair_value pr)); congruence.
  - assert (Hne : String.eqb (pair_key pr) (pair_key pr0) = false).
    { apply String.eqb_neq. intros E. apply negb_true_iff, mem_false in Hfresh.
      apply Hfresh. rewrite <- E. now apply in_map. }
    match goal with |- context [if ?c then _ else _] => destruct c end; simpl.
    + rewrite Hne. now apply IH.
    + now apply IH.
Qed.

Lemma extraPairs_keys (shapeKeys : list string) (data : list (string * value))
    (k : string) :
  mem k shapeKeys = true -> mem k (map pair_key (extraPairs shapeKeys data)) = false.
Proof.
  intros Hk. apply mem_false. unfold extraPairs.
  rewrite map_map. simpl. intros Hin.
  apply in_map_iff in Hin as ([k' v] & <- & Hf).
  apply filter_In in Hf as [_ Hf]. simpl in *.
  now rewrite Hk in Hf.
Qed.

Lemma finalObject_app (l1 l2 : list pair) :
  finalObject (l1 ++ l2) = finalObject l1 ++ finalObject l2.
Proof. unfold finalObject. apply flat_map_app. Qed.

Lemma parse_shape_keys (shape : list (string * schema)) (p : path)
    (data : list (string * value)) :
  map pair_key (parse_shape parse shape p data) = map fst shape.
Proof. unfold parse_shape. rewrite map_map. reflexivity. Qed.

(** A valid object: the input was an object, each shape key's
    validator accepted [data[key]], and the output holds its result
    under that key. *)
Lemma parse_object_Valid (shape : list (string * schema))
    (unknownKeys : UnknownKeys) (p : path) (v r : value) :
  parse (ZObject shape unknownKeys) p v = Valid r ->
  exists data, v = VObj data /\
    forall key validator,
      In (key, validator) shape ->
      exists out, parse validator (p ++ [Key key]) (prop key data) = Valid out /\
        (distinct (map fst shape) = true -> key <> "__proto__" ->
         get key r = out).
Proof.
  destruct v as [| | | | | |items|data]; try discriminate.
  simpl. intros H. exists data. split; [reflexivity|].
  apply mergeObjectSync_Valid in H as [-> Hall].
  intros key validator Hin.
  set (pr := mkPair key (parse validator (p ++ [Key key]) (prop key data))
                    (has_prop key data)).
  assert (Hpr : In pr (parse_shape parse shape p data)).
  { unfold parse_shape. apply in_map_iff. now exists (key, validator). }
  rewrite Forall_forall in Hall.
  assert (Hv := Hall pr (in_or_app _ _ _ (or_introl Hpr))). simpl in Hv.
  destruct (parse validator (p ++ [Key key]) (prop key data)) as [out| |] eqn:E;
    try discriminate.
  exists out. split; [reflexivity|].
  intros Hd Hproto. simpl. rewrite finalObject_app.
  assert (Hprop : prop key (finalObject (parse_shape parse shape p data)) = out).
  { pose proof (finalObject_prop (parse_shape parse shape p data) pr) as Hf.
    rewrite parse_shape_keys in Hf. specialize (Hf Hd Hpr Hproto).
    subst pr. simpl in Hf. exact Hf. }
  destruct (has_prop key (finalObject (parse_shape parse shape p data))) eqn:Eh.
  - now rewrite prop_app_found.
  - rewrite prop_app_missing by assumption.
    rewrite prop_missing in Hprop by assumption. subst out.
    apply prop_missing, finalObject_missing.
    destruct unknownKeys; [reflexivity|].
    apply extraPairs_keys, mem_In, in_map_iff. now exists (key, validator).
Qed.

(** ** The path only labels issues                                     *)

Lemma status_flags (r r' : ParseReturn) :
  status r = status r' ->
  is_aborted r = is_aborted r' /\ is_dirty r = is_dirty r'.
Proof. destruct r, r'; simpl; intros [= ]; auto. Qed.

Lemma mergeObjectSync_outline (l l' : list pair) :
  map pair_outline l = map pair_outline l' ->
  outline (mergeObjectSync l) = outline (mergeObjectSync l').
Proof.
  intros H.
  assert (Ha : existsb (fun pr => is_aborted (pair_value pr)) l =
               existsb (fun pr => is_aborted (pair_value pr)) l').
  { revert l' H. induction l as [|a l IH]; intros [|a' l']; simpl;
      try discriminate; [reflexivity|].
    intros [= Hk Hst Hv Hs Hrest]. destruct (status_flags _ _ Hst) as (-> & _).
    now rewrite (IH l'). }
  assert (Hd : existsb (fun pr => is_dirty (pair_value pr)) l =
               existsb (fun pr => is_dirty (pair_value pr)) l').
  { clear Ha. revert l' H. induction l as [|a l IH]; intros [|a' l']; simpl;
      try discriminate; [reflexivity|].
    intros [= Hk Hst Hv Hs Hrest]. destruct (status_flags _ _ Hst) as (_ & ->).
    now rewrite (IH l'). }
  assert (Hf : finalObject l = finalObject l').
  { clear Ha Hd. revert l' H. induction l as [|a l IH]; intros [|a' l']; simpl;
      try discriminate; [reflexivity|].
    intros [= Hk Hst Hv Hs Hrest].
    now rewrite Hk, Hv, Hs, (IH l'). }
  unfold mergeObjectSync. rewrite Ha, Hd, Hf.
  destruct (existsb _ l'); [reflexivity|]. destruct (existsb _ l'); reflexivity.
Qed.

Lemma mergeArray_outline (l l' : list ParseReturn) :
  map outline l = map outline l' ->
  outline (mergeArray l) = outline (mergeArray l').
Proof.
  intros H.
  assert (Ha : existsb is_aborted l = existsb is_aborted l').
  { revert l' H. induction l as [|a l IH]; intros [|a' l']; simpl;
      try discriminate; [reflexivity|].
    intros [= Hst Hv Hrest]. destruct (status_flags _ _ Hst) as (-> & _).
    now rewrite (IH l'). }
  assert (Hd : existsb is_dirty l = existsb is_dirty l').
  { clear Ha. revert l' H. induction l as [|a l IH]; intros [|a' l']; simpl;
      try discriminate; [reflexivity|].
    intros [= Hst Hv Hrest]. destruct (status_flags _ _ Hst) as (_ & ->).
    now rewrite (IH l'). }
  assert (Hf : map value_of l = map value_of l').
  { clear Ha Hd. revert l' H. induction l as [|a l IH]; intros [|a' l']; simpl;
      try discriminate; [reflexivity|].
    intros [= Hst Hv Hrest]. now rewrite Hv, (IH l'). }
  unfold mergeArray. rewrite Ha, Hd, Hf.
  destruct (existsb _ l'); [reflexivity|]. destruct (existsb _ l'); reflexivity.
Qed.

Lemma union_loop_outline (l l' : list ParseReturn) (p p' : path)
    (dirty dirty' : option ParseReturn) (iss iss' : list (list issue)) :
  map outline l = map outline l' ->
  option_map outline dirty = option_map outline dirty' ->
  outline (union_loop l p dirty iss) = outline (union_loop l' p' dirty' iss').
Proof.
  revert l' dirty dirty' iss iss'.
  induction l as [|a l IH]; intros [|a' l'] dirty dirty' iss iss'; simpl;
    try discriminate.
  - intros _ H. destruct dirty, dirty'; simpl in H; try discriminate;
      [unfold outline in *; congruence | reflexivity].
  - intros [= Hs Hv Hrest] Hdirty.
    destruct a, a'; simpl in Hs, Hv; try discriminate; subst.
    + reflexivity.
    + apply IH; [assumption|].
      destruct dirty, dirty'; simpl in *; try discriminate;
        [assumption | unfold outline; simpl; congruence].
    + now apply IH.
Qed.

Lemma string_checks_path (mn mx : option nat) (s : string) (p p' : path) :
  string_checks mn mx s p = [] -> string_checks mn mx s p' = [].
Proof.
  unfold string_checks.
  destruct mn as [n|], mx as [m|]; simpl;
    repeat match goal with
           | |- context [Nat.ltb ?a ?b] => destruct (Nat.ltb a b)
           end; simpl; intros H; congruence.
Qed.

(** The status and the output of a parse do not depend on the path it
    is run under. *)
Lemma parse_outline_path (s : schema) :
  forall (p p' : path) (v : value),
    outline (parse s p v) = outline (parse s p' v).
Proof.
  induction s using schema_nested_ind; intros p p' v.
  - destruct v; try reflexivity. simpl.
    destruct (string_checks mn mx s p) eqn:E, (string_checks mn mx s p') eqn:E';
      try reflexivity.
    + now rewrite (string_checks_path mn mx s p p' E) in E'.
    + now rewrite (string_checks_path mn mx s p' p E') in E.
  - destruct v; reflexivity.
  - destruct v; reflexivity.
  - destruct v; try reflexivity. simpl. destruct (String.eqb s lit); reflexivity.
  - destruct v; try reflexivity. simpl. destruct (mem s values); reflexivity.
  - destruct v as [| | | | | |items|data]; try reflexivity. simpl.
    apply mergeObjectSync_outline. rewrite !map_app. f_equal.
    unfold parse_shape. rewrite !map_map.
    apply map_ext_in. intros entry Hin. unfold pair_outline. simpl.
    rewrite Forall_forall in H. now rewrite (H entry Hin _ (p' ++ [Key (fst entry)])).
  - destruct v as [| | | | | |items|data]; try reflexivity. simpl.
    apply mergeArray_outline. generalize 0.
    induction items as [|item items IH]; intros i; simpl; [reflexivity|].
    now rewrite (IHs _ (p' ++ [Index i])), IH.
  - destruct v; simpl; try reflexivity; apply IHs.
  - destruct v; simpl; try reflexivity; apply IHs.
  - simpl. apply union_loop_outline; [|reflexivity].
    rewrite !map_map. apply map_ext_in. intros o Hin.
    rewrite Forall_forall in H. now apply H.
  - destruct v as [| | | | | |items|data]; try reflexivity.
    rewrite !parse_discriminatedUnion.
    destruct (Map_get (prop d data) (optionsMap d (fun o => o) options))
      as [o|] eqn:E; [|reflexivity].
    destruct (prop d data) as [| | | | |k| |]; try discriminate. simpl in E.
    apply assoc_optionsMap_Some in E as (o' & Hin & _ & ->).
    rewrite Forall_forall in H. now apply H.
Qed.

Lemma parse_Valid_path (s : schema) (p p' : path) (v r : value) :
  parse s p v = Valid r -> parse s p' v = Valid r.
Proof.
  intros H. pose proof (parse_outline_path s p p' v) as E.
  rewrite H in E. unfold outline in E. simpl in E.
  destruct (parse s p' v); simpl in E; congruence.
Qed.

(** ** Schemas without checks are never dirty                          *)

Lemma union_loop_clean (l : list ParseReturn) (p : path) (iss : list (list issue)) :
  Forall (fun r => status r <> st_dirty) l ->
  union_loop l p None iss =
  match first_valid l with
  | Some out => Valid out
  | None => Aborted [invalid_union (fold_left push_issues (map issues_of l) iss) p]
  end.
Proof.
  revert iss. unfold first_valid.
  induction l as [|r l IH]; intros iss Hall; simpl; [reflexivity|].
  inversion Hall as [|? ? Hr Hl]; subst.
  destruct r as [out|out li|li]; simpl.
  - reflexivity.
  - now elim Hr.
  - now apply IH.
Qed.

Lemma check_free_clean (s : schema) :
  check_free s = true ->
  forall (p : path) (v : value), status (parse s p v) <> st_dirty.
Proof.
  induction s using schema_nested_ind; intros Hfree p v; simpl in Hfree.
  - destruct mn, mx; try discriminate. destruct v; simpl; discriminate.
  - destruct v; discriminate.
  - destruct v; discriminate.
  - destruct v; try discriminate. simpl. destruct (String.eqb s lit); discriminate.
  - destruct v; try discriminate. simpl. destruct (mem s values); discriminate.
  - destruct v as [| | | | | |items|data]; try discriminate. simpl.
    unfold mergeObjectSync.
    destruct (existsb (fun pr => is_aborted (pair_value pr)) _); [discriminate|].
    match goal with |- context [existsb ?f ?l] => destruct (existsb f l) eqn:E end;
      [|discriminate].
    exfalso. apply existsb_exists in E as (pr & Hin & Hd).
    apply in_app_or in Hin as [Hin|Hin].
    + unfold parse_shape in Hin. apply in_map_iff in Hin as (entry & <- & Hin).
      simpl in Hd. rewrite Forall_forall in H. rewrite forallb_forall in Hfree.
      specialize (H entry Hin (Hfree entry Hin) (p ++ [Key (fst entry)])
                    (prop (fst entry) data)).
      destruct (parse (snd entry) _ _); simpl in *; congruence.
    + destruct unknownKeys; [contradiction|].
      unfold extraPairs in Hin. apply in_map_iff in Hin as (kv & <- & _).
      discriminate.
  - destruct v as [| | | | | |items|data]; try discriminate. simpl.
    unfold mergeArray.
    destruct (existsb is_aborted _); [discriminate|].
    match goal with |- context [existsb ?f ?l] => destruct (existsb f l) eqn:E end;
      [|discriminate].
    exfalso. apply existsb_exists in E as (r & Hin & Hd).
    revert Hin. generalize 0.
    induction items as [|item items IH]; intros i; simpl; [tauto|].
    intros [<-|Hin]; [|now apply (IH (S i))].
    specialize (IHs Hfree (p ++ [Index i]) item).
    destruct (parse s _ item); simpl in *; congruence.
  - destruct v; try discriminate; now apply IHs.
  - destruct v; try discriminate; now apply IHs.
  - simpl. rewrite union_loop_clean.
    + destruct (first_valid _); discriminate.
    + rewrite Forall_forall. intros r Hin.
      apply in_map_iff in Hin as (o & <- & Hin).
      rewrite Forall_forall in H. rewrite forallb_forall in Hfree.
      now apply H; [|apply Hfree].
  - destruct v as [| | | | | |items|data]; try discriminate.
    rewrite parse_discriminatedUnion.
    destruct (Map_get (prop d data) (optionsMap d (fun o => o) options))
      as [o|] eqn:E; [|discriminate].
    destruct (prop d data) as [| | | | |k| |]; try discriminate. simpl in E.
    apply assoc_optionsMap_Some in E as (o' & Hin & _ & ->).
    rewrite Forall_forall in H. rewrite forallb_forall in Hfree.
    now apply H; [|apply Hfree].
Qed.

(** ** Small facts about single validators                             *)

Lemma safeParse_success (s : schema) (v r : value) :
  safeParse s v = success r <-> parse s [] v = Valid r.
Proof.
  unfold safeParse, handleResult.
  destruct (parse s [] v); split; intros H; congruence.
Qed.

Lemma parse_literal_Valid (lit : string) (p : path) (v r : value) :
  parse (ZLiteral lit) p v = Valid r -> v = VStr lit /\ r = VStr lit.
Proof.
  destruct v; try discriminate. simpl.
  destruct (String.eqb s lit) eqn:E; [|discriminate].
  apply String.eqb_eq in E. subst. intros [= <-]. auto.
Qed.

Lemma parse_string_Valid (mn mx : option nat) (p : path) (v r : value) :
  parse (ZString mn mx) p v = Valid r -> exists s, v = VStr s /\ r = VStr s.
Proof.
  destruct v; try discriminate. simpl.
  destruct (string_checks mn mx s p); [|discriminate].
  intros [= <-]. now exists s.
Qed.

(** A member of a variant whose shape starts with the literal
    discriminator reads that literal back. *)
Lemma variant_discriminator (d tag : string) (shape : list (string * schema))
    (unknownKeys : UnknownKeys) (p : path) (u r : value) :
  parse (ZObject ((d, ZLiteral tag) :: shape) unknownKeys) p u = Valid r ->
  distinct (d :: map fst shape) = true ->
  d <> "__proto__" ->
  get d r = VStr tag.
Proof.
  intros H Hd Hproto.
  apply parse_object_Valid in H as (data & -> & Hfields).
  destruct (Hfields d (ZLiteral tag) (or_introl eq_refl)) as (out & Hout & Hget).
  apply parse_literal_Valid in Hout as [_ ->].
  now apply Hget.
Qed.

(** A member of a variant with a string field holds a string there,
    the one of the input. *)
Lemma variant_string_field (key : string) (mn mx : option nat)
    (shape : list (string * schema)) (unknownKeys : UnknownKeys)
    (p : path) (u r : value) :
  parse (ZObject shape unknownKeys) p u = Valid r ->
  In (key, ZString mn mx) shape ->
  distinct (map fst shape) = true ->
  key <> "__proto__" ->
  exists s, get key u = VStr s /\ get key r = VStr s.
Proof.
  intros H Hin Hd Hproto.
  apply parse_object_Valid in H as (data & -> & Hfields).
  destruct (Hfields key (ZString mn mx) Hin) as (out & Hout & Hget).
  apply parse_string_Valid in Hout as (s & Hs & ->).
  exists s. split; [exact Hs | now apply Hget].
Qed.

Lemma ApiUpdateType_keys (L : StringLimits) :
  flat_map (discriminatorValues "t") (options_of (ApiUpdateSchema L)) = ApiUpdateType.
Proof. reflexivity. Qed.

Lemma Legacy_ApiUpdateType_keys :
  flat_map (discriminatorValues "t") (options_of Legacy.ApiUpdateSchema) = ApiUpdateType.
Proof. reflexivity. Qed.

(** The two discriminated unions of the package can be created: every
    option has its literal, and no literal is claimed twice. *)
Lemma unions_create (L : StringLimits) :
  discriminatedUnion_creates "t" (options_of (ApiUpdateSchema L)) = true /\
  discriminatedUnion_creates "t" (options_of Legacy.ApiUpdateSchema) = true /\
  discriminatedUnion_creates "kind" (options_of FeedBodySchema) = true.
Proof. repeat split; reflexivity. Qed.

(** The new-message variant accepts every session identifier,
    whatever its length. *)
Lemma new_message_accepts_any_sid (L : StringLimits) (sid : string) :
  safeParse (ApiUpdateSchema L)
            (new_message_update sid (VObj [("t", VStr "encrypted"); ("c", VStr "abc")]))
  = success (new_message_update sid (VObj [("t", VStr "encrypted"); ("c", VStr "abc")])).
Proof.
  unfold safeParse, new_message_update, ApiUpdateSchema, z.discriminatedUnion.
  rewrite (parse_discriminatedUnion_selected "t" _ [] _ "new-message"
             ApiUpdateNewMessageSchema); reflexivity.
Qed.

Lemma scenario1_as_specified_rejected (L : StringLimits) :
  safeParse (ApiUpdateSchema L) scenario1_as_specified =
  failure [invalid_literal "encrypted" VUndefined
             [Key "message"; Key "content"; Key "t"];
           invalid_type (a_type ty_string) ty_undefined
             [Key "message"; Key "content"; Key "c"]].
Proof.
  unfold safeParse, scenario1_as_specified, new_message_update,
    ApiUpdateSchema, z.discriminatedUnion.
  rewrite (parse_discriminatedUnion_selected "t" _ [] _ "new-message"
             ApiUpdateNewMessageSchema); reflexivity.
Qed.

(* ================================================================== *)
(** ** Scenario 1: a new-message update                                *)
(* ================================================================== *)

(** C1, as stated, fails: the value of the first scenario, whose
    envelope is [{ tag: "encrypted", ciphertext: "abc" }], is rejected
    by [ApiUpdateSchema]; the envelope lacks the literal [t] and the
    string [c] that [EncryptedContentSchema] requires. *)
Lemma scenario1_as_specified_fails :
  safeParse (ApiUpdateSchema sample_limits) scenario1_as_specified =
  failure [invalid_literal "encrypted" VUndefined
             [Key "message"; Key "content"; Key "t"];
           invalid_type (a_type ty_string) ty_undefined
             [Key "message"; Key "content"; Key "c"]].
Proof. apply scenario1_as_specified_rejected. Qed.

(** C1, amended: with the envelope written [{ t: "encrypted", c: "abc" }]
    (the shape [EncryptedContentSchema] accepts) the new-message update
    of the first scenario validates against [ApiUpdateSchema], whatever
    the string limits; on the validated result [tryGetSessionId] returns
    ["session-789"] and [hasMachineId] returns [false]. *)
Theorem scenario1_validates (L : StringLimits) :
  safeParse EncryptedContentSchema (VObj [("t", VStr "encrypted"); ("c", VStr "abc")])
  = success (VObj [("t", VStr "encrypted"); ("c", VStr "abc")]) /\
  exists result,
    safeParse (ApiUpdateSchema L) scenario1 = success result /\
    tryGetSessionId result = VStr "session-789" /\
    hasMachineId result = false.
Proof.
  split; [reflexivity|].
  exists scenario1. split; [apply new_message_accepts_any_sid|].
  split; reflexivity.
Qed.

(* ================================================================== *)
(** ** Discriminator exhaustiveness of the durable union               *)
(* ================================================================== *)

(** An object whose [t] is none of the union's literals gets the one
    [invalid_union_discriminator] issue. *)
Lemma api_update_unknown_discriminator (L : StringLimits)
    (data : list (string * value)) :
  (forall t, prop "t" data = VStr t -> ~ In t ApiUpdateType) ->
  safeParse (ApiUpdateSchema L) (VObj data) =
  failure [invalid_union_discriminator ApiUpdateType [Key "t"]].
Proof.
  intros Hunknown.
  unfold safeParse, ApiUpdateSchema, z.discriminatedUnion.
  rewrite parse_discriminatedUnion_unknown; [reflexivity|].
  intros k Hk. exact (Hunknown k Hk).
Qed.

(** C2: whenever [ApiUpdateSchema] accepts a value, the value's [t] is
    one of the union's discriminator literals; and an object whose [t]
    is none of them (absent and non-string [t] included) fails with
    exactly one issue, [invalid_union_discriminator] at the path [t],
    which is not one of the codes of a shape violation. *)
Theorem api_update_discriminator_exhaustive (L : StringLimits) (v : value) :
  (forall r, safeParse (ApiUpdateSchema L) v = success r ->
             exists t, get "t" v = VStr t /\ In t ApiUpdateType) /\
  (forall data, v = VObj data ->
     (forall t, get "t" v = VStr t -> ~ In t ApiUpdateType) ->
     safeParse (ApiUpdateSchema L) v =
       failure [invalid_union_discriminator ApiUpdateType [Key "t"]] /\
     error_codes (safeParse (ApiUpdateSchema L) v) =
       [code_invalid_union_discriminator]).
Proof.
  split.
  - intros r H. apply safeParse_success in H.
    unfold ApiUpdateSchema, z.discriminatedUnion in H.
    apply parse_discriminatedUnion_Valid in H
      as (data & k & o & -> & Hk & Hin & Hkin & _).
    exists k. split; [exact Hk|].
    rewrite <- (ApiUpdateType_keys L). apply in_flat_map. now exists o.
  - intros data -> Hunknown.
    pose proof (api_update_unknown_discriminator L data Hunknown) as E.
    rewrite E. split; reflexivity.
Qed.

Lemma api_update_discriminator_witness :
  (exists t, get "t" scenario1 = VStr t /\ In t ApiUpdateType) /\
  safeParse (ApiUpdateSchema sample_limits) bogus_variant =
    failure [invalid_union_discriminator ApiUpdateType [Key "t"]] /\
  error_codes (safeParse (ApiUpdateSchema sample_limits) bogus_variant) =
    [code_invalid_union_discriminator].
Proof.
  split.
  - apply (proj1 (api_update_discriminator_exhaustive sample_limits scenario1)
                 scenario1).
    vm_compute. reflexivity.
  - apply (proj2 (api_update_discriminator_exhaustive sample_limits bogus_variant)
                 [("t", VStr "bogus-variant"); ("foo", VStr "bar")] eq_refl).
    intros t Ht. simpl in Ht. injection Ht as <-.
    simpl. intuition discriminate.
Defined.

(** A known [t] with missing fields is reported with the codes of a
    shape violation instead. *)
Example known_discriminator_shape_violation :
  error_codes (safeParse (ApiUpdateSchema sample_limits)
                         (VObj [("t", VStr "delete-session")]))
  = [code_invalid_type].
Proof. reflexivity. Qed.

(* ================================================================== *)
(** ** Identifier accessors over the variants of the durable union     *)
(* ================================================================== *)

(** For each option of [ApiUpdateSchema]: its members read their
    discriminator literal back; the literal is in the accessors' list
    of session (machine) carriers exactly when the option's shape has
    the field [sid] ([machineId]); and that field of a member is a
    string, the one of the input. *)
Lemma durable_variant_member (L : StringLimits) (variant : schema) :
  In variant (options_of (ApiUpdateSchema L)) ->
  forall u r, parse variant [] u = Valid r ->
  exists tag,
    get "t" r = VStr tag /\
    mem tag SESSION_ID_UPDATE_TYPES = has_field "sid" variant /\
    mem tag MACHINE_ID_UPDATE_TYPES = has_field "machineId" variant /\
    (has_field "sid" variant = true ->
       exists s, get "sid" u = VStr s /\ get "sid" r = VStr s) /\
    (has_field "machineId" variant = true ->
       exists s, get "machineId" u = VStr s /\ get "machineId" r = VStr s).
Proof.
  intros Hin u r H. simpl in Hin.
  repeat (destruct Hin as [<-|Hin]); [..|contradiction];
    (eexists; split;
     [ eapply variant_discriminator; [exact H | reflexivity | discriminate]
     | split; [reflexivity|]; split; [reflexivity|];
       split; intros Hf; try discriminate Hf;
       (eapply variant_string_field;
          [exact H | right; left; reflexivity | reflexivity | discriminate]) ]).
Qed.

(** C5: for every variant of [ApiUpdateSchema] and every value it
    validates: if the variant's shape has a field [sid], [hasSessionId]
    is true and [getSessionId] returns that field's string; if it has
    none, [hasSessionId] is false and [tryGetSessionId] is [undefined];
    and likewise for [machineId] with [hasMachineId], [getMachineId]
    and [tryGetMachineId]. *)
Theorem accessor_coverage (L : StringLimits) (variant : schema) (u r : value) :
  In variant (options_of (ApiUpdateSchema L)) ->
  safeParse variant u = success r ->
  (if has_field "sid" variant
   then hasSessionId r = true /\
        exists sid, get "sid" u = VStr sid /\ get "sid" r = VStr sid /\
                    getSessionId r = Returned (VStr sid)
   else hasSessionId r = false /\ tryGetSessionId r = VUndefined) /\
  (if has_field "machineId" variant
   then hasMachineId r = true /\
        exists machineId,
          get "machineId" u = VStr machineId /\
          get "machineId" r = VStr machineId /\
          getMachineId r = Returned (VStr machineId)
   else hasMachineId r = false /\ tryGetMachineId r = VUndefined).
Proof.
  intros Hin H. apply safeParse_success in H.
  destruct (durable_variant_member L variant Hin u r H)
    as (tag & Ht & Hs & Hm & Hsid & Hmid).
  unfold getSessionId, tryGetSessionId, hasSessionId,
         getMachineId, tryGetMachineId, hasMachineId, discriminator_in.
  rewrite Ht, Hs, Hm. split.
  - destruct (has_field "sid" variant).
    + split; [reflexivity|]. destruct (Hsid eq_refl) as (s & Hu & Hr).
      exists s. now rewrite Hr.
    + split; reflexivity.
  - destruct (has_field "machineId" variant).
    + split; [reflexivity|]. destruct (Hmid eq_refl) as (s & Hu & Hr).
      exists s. now rewrite Hr.
    + split; reflexivity.
Qed.

Lemma accessor_coverage_witness :
  (hasSessionId scenario1 = true /\
   exists sid, get "sid" scenario1 = VStr sid /\ get "sid" scenario1 = VStr sid /\
               getSessionId scenario1 = Returned (VStr sid)) /\
  (hasMachineId scenario1 = false /\ tryGetMachineId scenario1 = VUndefined).
Proof.
  apply (accessor_coverage sample_limits ApiUpdateNewMessageSchema
                           scenario1 scenario1).
  - simpl. left. reflexivity.
  - vm_compute. reflexivity.
Defined.

(** C8: for every variant of [ApiUpdateSchema] whose shape lacks the
    field [sid], [getSessionId] on a value the variant validates ends
    in the invariant violation: it returns no value, so in particular
    not the empty string; and likewise [getMachineId] for a variant
    without [machineId]. *)
Theorem accessor_precondition_violation (L : StringLimits) (variant : schema)
    (u r : value) :
  In variant (options_of (ApiUpdateSchema L)) ->
  safeParse variant u = success r ->
  (has_field "sid" variant = false ->
     getSessionId r = InvariantViolation /\
     getSessionId r <> Returned (VStr "")) /\
  (has_field "machineId" variant = false ->
     getMachineId r = InvariantViolation /\
     getMachineId r <> Returned (VStr "")).
Proof.
  intros Hin H. apply safeParse_success in H.
  destruct (durable_variant_member L variant Hin u r H)
    as (tag & Ht & Hs & Hm & _ & _).
  unfold getSessionId, hasSessionId, getMachineId, hasMachineId, discriminator_in.
  rewrite Ht, Hs, Hm.
  split; intros ->; split; [reflexivity | discriminate | reflexivity | discriminate].
Qed.

Lemma accessor_precondition_violation_witness :
  (getSessionId (new_machine_update "machine-abc") = InvariantViolation /\
   getSessionId (new_machine_update "machine-abc") <> Returned (VStr "")) /\
  (getMachineId scenario1 = InvariantViolation /\
   getMachineId scenario1 <> Returned (VStr "")).
Proof.
  split.
  - refine (proj1 (accessor_precondition_violation sample_limits
                     (ApiNewMachineSchema sample_limits)
                     (new_machine_update "machine-abc")
                     (new_machine_update "machine-abc") _ _) _).
    + simpl. do 6 right. left. reflexivity.
    + vm_compute. reflexivity.
    + reflexivity.
  - refine (proj2 (accessor_precondition_violation sample_limits
                     ApiUpdateNewMessageSchema scenario1 scenario1 _ _) _).
    + simpl. left. reflexivity.
    + vm_compute. reflexivity.
    + reflexivity.
Defined.

(* ================================================================== *)
(** ** Members of the durable union                                    *)
(* ================================================================== *)

(** C4, on the code: [archive-session] and [delete-machine] are not
    among the discriminator literals of [ApiUpdateSchema], so the
    union rejects the well-formed examples of both with
    [invalid_union_discriminator], although their own schemas,
    [ApiArchiveSessionSchema] and [ApiDeleteMachineSchema], accept
    them. *)
Theorem archive_session_delete_machine_not_members (L : StringLimits) :
  mem "archive-session" ApiUpdateType = false /\
  mem "delete-machine" ApiUpdateType = false /\
  safeParse (ApiUpdateSchema L) archive_session_update =
    failure [invalid_union_discriminator ApiUpdateType [Key "t"]] /\
  safeParse (ApiUpdateSchema L) delete_machine_update =
    failure [invalid_union_discriminator ApiUpdateType [Key "t"]] /\
  safeParse (ApiArchiveSessionSchema sample_limits) archive_session_update =
    success archive_session_update /\
  safeParse (ApiDeleteMachineSchema sample_limits) delete_machine_update =
    success delete_machine_update.
Proof.
  split; [reflexivity|]. split; [reflexivity|].
  assert (Hunknown : forall data tag,
            prop "t" data = VStr tag -> mem tag ApiUpdateType = false ->
            safeParse (ApiUpdateSchema L) (VObj data) =
            failure [invalid_union_discriminator ApiUpdateType [Key "t"]]).
  { intros data tag Htag Hmem.
    apply api_update_unknown_discriminator.
    intros t Ht. rewrite Htag in Ht. injection Ht as <-.
    now apply mem_false. }
  split; [apply (Hunknown _ "archive-session"); reflexivity|].
  split; [apply (Hunknown _ "delete-machine"); reflexivity|].
  split; vm_compute; reflexivity.
Qed.

(* ================================================================== *)
(** ** Length limits                                                   *)
(* ================================================================== *)

Lemma length_repeat_x (n : nat) : String.length (repeat_x n) = n.
Proof. induction n; simpl; congruence. Qed.

(** The validator of a bounded identifier,
    [z.string().min(1).max(ID_MAX)]: a string of exactly the maximum
    length is valid, one character more is dirty with [too_big]. *)
Lemma bounded_id_boundary (limit : nat) (p : path) (s : string) :
  (1 <= limit -> String.length s = limit ->
   parse (z.string .> zm.min 1 .> zm.max limit) p (VStr s) = Valid (VStr s)) /\
  (String.length s = limit + 1 ->
   parse (z.string .> zm.min 1 .> zm.max limit) p (VStr s) =
   Dirty (VStr s) [too_big limit p]).
Proof.
  cbn -[Nat.ltb]. unfold string_checks. split.
  - intros H1 Hlen. rewrite Hlen.
    destruct (Nat.ltb_spec limit 1) as [Hlt|_]; [lia|].
    now rewrite Nat.ltb_irrefl.
  - intros Hlen. rewrite Hlen.
    destruct (Nat.ltb_spec (limit + 1) 1) as [Hlt|_]; [lia|].
    destruct (Nat.ltb_spec limit (limit + 1)) as [_|Hge]; [reflexivity|lia].
Qed.

(** C6, on the code: the [sid] of the new-message variant (and of
    delete-session, in the same file) carries no length check, so
    [ApiUpdateSchema] accepts a [sid] one character longer than
    [ID_MAX], whatever the limits; the sibling new-session variant does
    bound its [sid]: at the sample limits a [sid] of [ID_MAX] characters
    validates and one of [ID_MAX + 1] fails with [too_big]. *)
Theorem new_message_sid_unbounded (L : StringLimits) :
  let envelope := VObj [("t", VStr "encrypted"); ("c", VStr "abc")] in
  let too_long := repeat_x (ID_MAX L + 1) in
  has_field "sid" ApiUpdateNewMessageSchema = true /\
  shape_get "sid" (shape_of ApiUpdateNewMessageSchema) = Some (ZString None None) /\
  safeParse (ApiUpdateSchema L) (new_message_update too_long envelope) =
    success (new_message_update too_long envelope) /\
  safeParse (ApiUpdateSchema L) (delete_session_update too_long) =
    success (delete_session_update too_long) /\
  safeParse (ApiUpdateSchema sample_limits)
            (new_session_update (repeat_x (ID_MAX sample_limits))) =
    success (new_session_update (repeat_x (ID_MAX sample_limits))) /\
  safeParse (ApiUpdateSchema sample_limits)
            (new_session_update (repeat_x (ID_MAX sample_limits + 1))) =
    failure [too_big (ID_MAX sample_limits) [Key "sid"]].
Proof.
  intros envelope too_long.
  split; [reflexivity|]. split; [reflexivity|].
  split; [apply new_message_accepts_any_sid|].
  split.
  - unfold safeParse, delete_session_update, ApiUpdateSchema, z.discriminatedUnion.
    rewrite (parse_discriminatedUnion_selected "t" _ [] _ "delete-session"
               ApiDeleteSessionSchema); reflexivity.
  - split; vm_compute; reflexivity.
Qed.

(* ================================================================== *)
(** ** The ephemeral union                                             *)
(* ================================================================== *)

(** C3, on the code: the ephemeral schemas of [events.ts] name the
    identifier of [activity], [usage] and [machine-activity] [id], and
    have no [machine-disconnected] variant.  The fixtures of
    [helpers.test.ts], which carry [sid] and [machineId], are rejected
    by [ApiEphemeralUpdateSchema], all but the [machine-status] one;
    the same events with the identifier under [id] are accepted. *)
Theorem ephemeral_identifier_fields :
  map (has_field "sid")
      [ApiEphemeralActivityUpdateSchema; ApiEphemeralUsageUpdateSchema] =
    [false; false] /\
  map (has_field "machineId")
      [ApiEphemeralMachineActivityUpdateSchema;
       ApiEphemeralMachineStatusUpdateSchema] = [false; true] /\
  flat_map (discriminatorValues "type") (options_of ApiEphemeralUpdateSchema) =
    ["activity"; "usage"; "machine-activity"; "machine-status"] /\
  map (fun event => is_success (safeParse ApiEphemeralUpdateSchema event))
      [activityEphemeral; usageEphemeral; machineActivityEphemeral;
       machineStatusEphemeral; machineDisconnectedEphemeral] =
    [false; false; false; true; false] /\
  map (fun event => is_success (safeParse ApiEphemeralUpdateSchema event))
      [activity_with_id; usage_counters "id"; machine_activity_with_id] =
    [true; true; true].
Proof. repeat split; vm_compute; reflexivity. Qed.

Lemma ephemeral_options_check_free :
  forallb check_free (options_of ApiEphemeralUpdateSchema) = true.
Proof. reflexivity. Qed.

(** [ZodUnion] over the ephemeral options: the first option, in the
    order of the array, that accepts the input decides; when none
    does, the one issue is [invalid_union] with the issues of every
    option. *)
Lemma ephemeral_union_parse (v : value) :
  let results := map (fun option_ => parse option_ [] v)
                     (options_of ApiEphemeralUpdateSchema) in
  safeParse ApiEphemeralUpdateSchema v =
  match first_valid results with
  | Some out => success out
  | None => failure [invalid_union (unionErrors results) []]
  end.
Proof.
  intros results. unfold safeParse.
  change (parse ApiEphemeralUpdateSchema [] v)
    with (union_loop results [] None []).
  rewrite union_loop_clean.
  - unfold unionErrors. destruct (first_valid results); reflexivity.
  - rewrite Forall_forall. intros r Hin. subst results.
    apply in_map_iff in Hin as (o & <- & Hin).
    apply check_free_clean.
    pose proof ephemeral_options_check_free as Hfree.
    rewrite forallb_forall in Hfree. now apply Hfree.
Qed.

(** C7, as stated, fails: an unknown [type] gets the same single
    [invalid_union] issue as a known [type] with missing fields, not a
    code of its own; and that issue holds one list of issues per option
    of the union, each option having been run on the input. *)
Lemma ephemeral_unknown_type_is_invalid_union :
  error_codes (safeParse ApiEphemeralUpdateSchema (VObj [("type", VStr "bogus")]))
    = [code_invalid_union] /\
  error_codes (safeParse ApiEphemeralUpdateSchema (VObj [("type", VStr "activity")]))
    = [code_invalid_union] /\
  (exists per_option,
     safeParse ApiEphemeralUpdateSchema (VObj [("type", VStr "bogus")]) =
       failure [invalid_union per_option []] /\
     map (fun l => hd_error (map code l)) per_option =
       [Some code_invalid_literal; Some code_invalid_literal;
        Some code_invalid_literal; Some code_invalid_literal]).
Proof.
  split; [reflexivity|]. split; [reflexivity|].
  eexists. split; vm_compute; reflexivity.
Qed.

(** C7, amended: [ApiEphemeralUpdateSchema] is a plain union: every
    input is run against the four variant schemas in the order they are
    listed; the first that accepts it gives the result; when none does
    (the [type] unknown, or known with a malformed shape) validation
    fails with the single generic [invalid_union] issue that gathers
    the issues of every variant. *)
Theorem ephemeral_union_is_linear (v : value) :
  let results := map (fun option_ => parse option_ [] v)
                     [ApiEphemeralActivityUpdateSchema;
                      ApiEphemeralUsageUpdateSchema;
                      ApiEphemeralMachineActivityUpdateSchema;
                      ApiEphemeralMachineStatusUpdateSchema] in
  safeParse ApiEphemeralUpdateSchema v =
    match first_valid results with
    | Some out => success out
    | None => failure [invalid_union (unionErrors results) []]
    end /\
  (is_success (safeParse ApiEphemeralUpdateSchema v) = false ->
   error_codes (safeParse ApiEphemeralUpdateSchema v) = [code_invalid_union]).
Proof.
  intros results. pose proof (ephemeral_union_parse v) as E.
  cbv zeta in E. change (options_of ApiEphemeralUpdateSchema) with
    [ApiEphemeralActivityUpdateSchema; ApiEphemeralUsageUpdateSchema;
     ApiEphemeralMachineActivityUpdateSchema;
     ApiEphemeralMachineStatusUpdateSchema] in E.
  fold results in E. split; [exact E|].
  rewrite E. destruct (first_valid results); [discriminate | reflexivity].
Qed.

Lemma ephemeral_union_is_linear_witness :
  error_codes (safeParse ApiEphemeralUpdateSchema machineDisconnectedEphemeral)
  = [code_invalid_union].
Proof.
  apply (proj2 (ephemeral_union_is_linear machineDisconnectedEphemeral)).
  vm_compute. reflexivity.
Defined.

(* ================================================================== *)
(** ** Payload envelopes                                               *)
(* ================================================================== *)

Lemma existsb_all_false {A : Type} (f : A -> bool) (l : list A) :
  (forall x, In x l -> f x = false) -> existsb f l = false.
Proof.
  induction l as [|x l IH]; simpl; intros H; [reflexivity|].
  rewrite (H x (or_introl eq_refl)). apply IH. intros y Hy. apply H. now right.
Qed.

(** An object whose every shape key is accepted is accepted. *)
Lemma parse_object_accepts (shape : list (string * schema))
    (unknownKeys : UnknownKeys) (p : path) (data : list (string * value)) :
  (forall key validator, In (key, validator) shape ->
     status (parse validator (p ++ [Key key]) (prop key data)) = st_valid) ->
  status (parse (ZObject shape unknownKeys) p (VObj data)) = st_valid.
Proof.
  intros Hall. simpl. unfold mergeObjectSync.
  assert (Hpairs : forall pr,
            In pr (parse_shape parse shape p data ++
                   match unknownKeys with
                   | strip => []
                   | passthrough => extraPairs (map fst shape) data
                   end) ->
            status (pair_value pr) = st_valid).
  { intros pr Hin. apply in_app_or in Hin as [Hin|Hin].
    - unfold parse_shape in Hin. apply in_map_iff in Hin as ([key validator] & <- & Hin).
      simpl. now apply Hall.
    - destruct unknownKeys; [contradiction|].
      unfold extraPairs in Hin. apply in_map_iff in Hin as (kv & <- & _).
      reflexivity. }
  rewrite !existsb_all_false; [reflexivity| |];
    intros pr Hin; specialize (Hpairs pr Hin);
    destruct (pair_value pr); simpl in *; congruence.
Qed.

(** The pairs of the keys passed through carry no issue, whatever the
    values are. *)
Lemma extraPairs_valid (shapeKeys : list string) (data : list (string * value)) :
  Forall (fun pr => status (pair_value pr) = st_valid) (extraPairs shapeKeys data).
Proof.
  unfold extraPairs. apply Forall_forall. intros pr Hin.
  apply in_map_iff in Hin as (kv & <- & _). reflexivity.
Qed.

Lemma extraPairs_issues (shapeKeys : list string) (data : list (string * value)) :
  flat_map (fun pr => issues_of (pair_value pr)) (extraPairs shapeKeys data) = [] /\
  existsb (fun pr => is_aborted (pair_value pr)) (extraPairs shapeKeys data) = false.
Proof.
  unfold extraPairs.
  induction (filter (fun kv => negb (mem (fst kv) shapeKeys)) data) as [|kv l [IH1 IH2]];
    split; simpl; auto.
Qed.

(** A key that the shape does not name has, in the object built from
    the passed-through pairs, the value it has in the input. *)
Lemma extraPairs_scan (shapeKeys : list string) (data l : list (string * value))
    (k : string) :
  mem k shapeKeys = false -> k <> "__proto__" ->
  prop k (finalObject
            (map (fun kv => mkPair (fst kv) (Valid (prop (fst kv) data)) false)
                 (filter (fun kv => negb (mem (fst kv) shapeKeys)) l)))
  = if has_prop k l then prop k data else VUndefined.
Proof.
  intros Hk Hproto. induction l as [|[k' v'] l IH]; [reflexivity|].
  cbn [filter fst has_prop].
  destruct (String.eqb k k') eqn:E.
  - apply String.eqb_eq in E. subst k'. rewrite Hk.
    cbn [negb map fst orb]. unfold finalObject in *. cbn [flat_map pair_key pair_value
      alwaysSet value_of].
    apply String.eqb_neq in Hproto. rewrite Hproto. cbn [negb andb orb].
    destruct (prop k data) eqn:P; cbn [negb orb app prop];
      rewrite ?String.eqb_refl; try reflexivity.
    rewrite IH. destruct (has_prop k l); reflexivity.
  - cbn [orb]. destruct (mem k' shapeKeys); cbn [negb]; [exact IH|].
    cbn [map fst]. unfold finalObject in *.
    cbn [flat_map pair_key pair_value alwaysSet value_of].
    destruct (negb (String.eqb k' "__proto__")
              && (negb match prop k' data with VUndefined => true | _ => false end
                  || false)); cbn [app prop]; [rewrite E|]; exact IH.
Qed.

Lemma extraPairs_prop (shapeKeys : list string) (data : list (string * value))
    (k : string) :
  mem k shapeKeys = false -> k <> "__proto__" ->
  prop k (finalObject (extraPairs shapeKeys data)) = prop k data.
Proof.
  intros Hk Hproto. unfold extraPairs.
  rewrite (extraPairs_scan shapeKeys data data k Hk Hproto).
  destruct (has_prop k data) eqn:E; [reflexivity|].
  symmetry. now apply prop_missing.
Qed.

(** [.passthrough()]: a key outside the shape comes out of an accepted
    object with the value it went in with. *)
Lemma parse_passthrough_extra (shape : list (string * schema)) (p : path)
    (data : list (string * value)) (r : value) (k : string) :
  parse (ZObject shape passthrough) p (VObj data) = Valid r ->
  mem k (map fst shape) = false -> k <> "__proto__" ->
  get k r = prop k data.
Proof.
  intros H Hk Hproto. cbn [parse] in H.
  apply mergeObjectSync_Valid in H as [-> _].
  cbn [get]. rewrite finalObject_app, prop_app_missing.
  - now apply extraPairs_prop.
  - apply finalObject_missing. now rewrite parse_shape_keys.
Qed.

(** What the body schema of [UpdatePayloadSchema] does: an object is
    accepted exactly when its [t] is a string, and every field of an
    accepted object comes out as it went in. *)
Lemma payload_body_parse (p : path) (body : value) (r : value) :
  parse (z.object [("t", z.string)] .> zm.passthrough) p body = Valid r ->
  exists data t,
    body = VObj data /\ prop "t" data = VStr t /\
    forall k, k <> "__proto__" -> get k r = prop k data.
Proof.
  intros H.
  change (z.object [("t", z.string)] .> zm.passthrough)
    with (ZObject [("t", z.string)] passthrough) in H.
  destruct (parse_object_Valid _ _ _ _ _ H) as (data & -> & Hfields).
  destruct (Hfields "t" z.string) as (out & Hout & Hget); [now left|].
  apply parse_string_Valid in Hout as (t & Ht & ->).
  exists data, t. repeat split; [exact Ht|].
  intros k Hproto. destruct (String.eqb k "t") eqn:E.
  - apply String.eqb_eq in E. subst k. rewrite Ht.
    apply Hget; [reflexivity | exact Hproto].
  - apply (parse_passthrough_extra _ _ _ _ k H); [|exact Hproto].
    cbn [map fst mem]. now rewrite E.
Qed.

Lemma payload_body_accepts (data : list (string * value)) (t : string) (p : path) :
  prop "t" data = VStr t ->
  status (parse (z.object [("t", z.string)] .> zm.passthrough) p (VObj data))
  = st_valid.
Proof.
  intros Ht. apply parse_object_accepts.
  intros key validator [[= <- <-]|[]]. now rewrite Ht.
Qed.

Lemma payload_body_rejects (data : list (string * value)) (p : path) :
  match prop "t" data with
  | VStr _ => True
  | w =>
      parse (z.object [("t", z.string)] .> zm.passthrough) p (VObj data)
      = Aborted [invalid_type (a_type ty_string) (getParsedType w) (p ++ [Key "t"])]
  end.
Proof.
  change (z.object [("t", z.string)] .> zm.passthrough)
    with (ZObject [("t", z.string)] passthrough).
  destruct (extraPairs_issues ["t"] data) as [Hissues Haborted].
  destruct (prop "t" data) eqn:Ht; try exact I;
    cbn [parse parse_shape map fst snd app]; rewrite Ht;
    unfold mergeObjectSync;
    cbn [existsb flat_map pair_value is_aborted issues_of orb app parse z.string];
    rewrite Hissues; reflexivity.
Qed.

(** C9: [UpdatePayloadSchema] accepts a value exactly when it is an
    object with a string [id], numeric [seq] and [createdAt], and a
    [body] that is an object with a string [t]: nothing else of the
    body is looked at.  A body whose [t] is missing or is no string is
    rejected with [invalid_type] at [body.t].  Every field of an
    accepted body comes out with the value it went in with.  So there
    is a payload it accepts whose body [ApiUpdateSchema] rejects;
    whereas a payload that [ApiUpdateContainerSchema] accepts has a
    body that [ApiUpdateSchema] accepts. *)
Theorem update_payload_body_unvalidated (L : StringLimits) :
  (forall v,
     is_success (safeParse UpdatePayloadSchema v) = true <->
     exists data id seq body t createdAt,
       v = VObj data /\
       prop "id" data = VStr id /\ prop "seq" data = VNum seq /\
       prop "body" data = VObj body /\ prop "t" body = VStr t /\
       prop "createdAt" data = VNum createdAt) /\
  (forall body,
     match prop "t" body with
     | VStr _ =>
         is_success (safeParse UpdatePayloadSchema (update_payload (VObj body))) = true
     | w =>
         safeParse UpdatePayloadSchema (update_payload (VObj body))
         = failure [invalid_type (a_type ty_string) (getParsedType w)
                                 [Key "body"; Key "t"]]
     end) /\
  (forall v r,
     safeParse UpdatePayloadSchema v = success r ->
     forall k, k <> "__proto__" ->
       get k (get "body" r) = get k (get "body" v)) /\
  safeParse UpdatePayloadSchema (update_payload bogus_variant) =
    success (update_payload bogus_variant) /\
  (exists v,
     is_success (safeParse UpdatePayloadSchema v) = true /\
     is_success (safeParse (ApiUpdateSchema L) (get "body" v)) = false) /\
  (forall v r,
     safeParse (ApiUpdateContainerSchema L) v = success r ->
     exists body,
       safeParse (ApiUpdateSchema L) (get "body" v) = success body /\
       get "body" r = body).
Proof.
  assert (Haccept : forall data id seq body t createdAt,
            prop "id" data = VStr id -> prop "seq" data = VNum seq ->
            prop "body" data = VObj body -> prop "t" body = VStr t ->
            prop "createdAt" data = VNum createdAt ->
            is_success (safeParse UpdatePayloadSchema (VObj data)) = true).
  { intros data id seq body t createdAt Hid Hseq Hbody Ht Hcreated.
    unfold safeParse.
    assert (H : status (parse UpdatePayloadSchema [] (VObj data)) = st_valid).
    { apply parse_object_accepts.
      intros key validator [[= <- <-]|[[= <- <-]|[[= <- <-]|[[= <- <-]|[]]]]].
      - now rewrite Hid.
      - now rewrite Hseq.
      - rewrite Hbody. now apply (payload_body_accepts body t).
      - now rewrite Hcreated. }
    destruct (parse UpdatePayloadSchema [] (VObj data)); [reflexivity| |];
      discriminate H. }
  split; [|split; [|split; [|split; [reflexivity|split]]]].
  - intros v. split.
    + destruct (safeParse UpdatePayloadSchema v) as [r|] eqn:H; [|discriminate].
      intros _. apply safeParse_success in H.
      unfold UpdatePayloadSchema, z.object in H.
      apply parse_object_Valid in H as (data & -> & Hfields).
      destruct (Hfields "id" z.string) as (oid & Hid & _); [simpl; tauto|].
      apply parse_string_Valid in Hid as (id & Hid & _).
      destruct (Hfields "seq" z.number) as (oseq & Hseq & _); [simpl; tauto|].
      destruct (Hfields "createdAt" z.number) as (oc & Hc & _); [simpl; tauto|].
      destruct (Hfields "body" (ZObject [("t", z.string)] passthrough))
        as (obody & Hbody & _); [simpl; tauto|].
      apply (payload_body_parse _ _ _) in Hbody as (body & t & Hbody & Ht & _).
      destruct (prop "seq" data) as [| | |seq| | | |] eqn:Eseq; try discriminate Hseq.
      destruct (prop "createdAt" data) as [| | |createdAt| | | |] eqn:Ec;
        try discriminate Hc.
      exists data, id, seq, body, t, createdAt. repeat split; assumption.
    + intros (data & id & seq & body & t & createdAt & -> & Hid & Hseq & Hbody & Ht & Hc).
      exact (Haccept data id seq body t createdAt Hid Hseq Hbody Ht Hc).
  - intros body.
    pose proof (payload_body_rejects body [Key "body"]) as Hrej.
    destruct (prop "t" body) as [| |b|n| |t|items|props] eqn:Ht;
      try (unfold safeParse, update_payload, UpdatePayloadSchema, z.object;
           cbn [parse parse_shape map fst snd app prop has_prop String.eqb Ascii.eqb
                Bool.eqb orb z.string z.number];
           cbn [app] in Hrej;
           change (z.object [("t", z.string)])
             with (ZObject [("t", z.string)] strip) in Hrej;
           rewrite Hrej; reflexivity).
    apply (Haccept _ "update-1" 1%Z body t 1700000000000%Z); try reflexivity.
    exact Ht.
  - intros v r H k Hproto. apply safeParse_success in H.
    unfold UpdatePayloadSchema, z.object in H.
    apply parse_object_Valid in H as (data & -> & Hfields).
    destruct (Hfields "body" (ZObject [("t", z.string)] passthrough))
      as (obody & Hbody & Hget); [simpl; tauto|].
    rewrite Hget; [|reflexivity|discriminate].
    apply (payload_body_parse _ _ _) in Hbody as (body & t & Hbody & _ & Hkeep).
    cbn [get]. rewrite Hbody. cbn [get]. now apply Hkeep.
  - exists (update_payload bogus_variant). split; [reflexivity|].
    change (get "body" (update_payload bogus_variant))
      with (VObj [("t", VStr "bogus-variant"); ("foo", VStr "bar")]).
    rewrite api_update_unknown_discriminator; [reflexivity|].
    intros t [= <-]. apply mem_false. reflexivity.
  - intros v r H. apply safeParse_success in H.
    unfold ApiUpdateContainerSchema, z.object in H.
    apply parse_object_Valid in H as (data & -> & Hfields).
    destruct (Hfields "body" (ApiUpdateSchema L)) as (body & Hbody & Hget).
    { right. right. left. reflexivity. }
    exists body. split.
    + apply safeParse_success.
      exact (parse_Valid_path _ _ [] _ _ Hbody).
    + apply Hget; [reflexivity | discriminate].
Qed.

(* ================================================================== *)
(** ** The github-casing rule                                          *)
(* ================================================================== *)

(** C10: for every name that contains [GitHub],
    [hasIncorrectGithubCasing] is false, also when the name contains
    [Github] as well (as in [GitHubToGithubSync]), and the rule files
    no report for it. *)
Theorem github_casing_mixed_not_reported (name : string) :
  includes "GitHub" name = true ->
  hasIncorrectGithubCasing name = false /\ reportIncorrectCasing name = [].
Proof.
  intros H. unfold reportIncorrectCasing.
  assert (E : hasIncorrectGithubCasing name = false).
  { unfold hasIncorrectGithubCasing. rewrite H. simpl. apply andb_false_r. }
  now rewrite E.
Qed.

Lemma github_casing_mixed_witness :
  includes "Github" "GitHubToGithubSync" = true /\
  Github_not_ub_i_test "GitHubToGithubSync" = true /\
  hasIncorrectGithubCasing "GitHubToGithubSync" = false /\
  reportIncorrectCasing "GitHubToGithubSync" = [].
Proof.
  split; [reflexivity|]. split; [reflexivity|].
  apply (github_casing_mixed_not_reported "GitHubToGithubSync").
  reflexivity.
Defined.

(** Without a correctly cased occurrence the same misspelling is
    reported, with the corrected text as the fix. *)
Example github_casing_reported :
  reportIncorrectCasing "GithubUser" =
  [ {| messageId := "incorrectCasing"; data_name := "GithubUser";
       fix_text := "GitHubUser" |} ].
Proof. reflexivity. Qed.

Lemma update_payload_body_unvalidated_witness :
  (exists body,
     safeParse (ApiUpdateSchema sample_limits)
               (get "body" (update_payload scenario1)) = success body /\
     get "body" (update_payload scenario1) = body) /\
  safeParse UpdatePayloadSchema (update_payload (VObj [("foo", VStr "bar")]))
  = failure [invalid_type (a_type ty_string) ty_undefined [Key "body"; Key "t"]] /\
  get "foo" (get "body" (update_payload bogus_variant)) = VStr "bar".
Proof.
  split; [|split].
  - apply (proj2 (proj2 (proj2 (proj2 (proj2
             (update_payload_body_unvalidated sample_limits)))))
             (update_payload scenario1) (update_payload scenario1)).
    vm_compute. reflexivity.
  - exact (proj1 (proj2 (update_payload_body_unvalidated sample_limits))
                 [("foo", VStr "bar")]).
  - apply (proj1 (proj2 (proj2 (update_payload_body_unvalidated sample_limits)))
                 (update_payload bogus_variant) (update_payload bogus_variant)
                 (proj1 (proj2 (proj2 (proj2
                    (update_payload_body_unvalidated sample_limits)))))
                 "foo").
    discriminate.
Defined.

(* ================================================================== *)
(** ** Remarks                                                         *)
(* ================================================================== *)

(** An input that is not an object has no [t] to look up:
    [ZodDiscriminatedUnion] reports its type. *)
Example non_object_is_invalid_type :
  safeParse (ApiUpdateSchema sample_limits) (VStr "new-message") =
  failure [invalid_type (a_type ty_object) ty_string []].
Proof. reflexivity. Qed.

(** The second scenario of the specification. *)
Example scenario2_validates :
  safeParse (ApiUpdateSchema sample_limits) (new_machine_update "machine-abc") =
    success (new_machine_update "machine-abc") /\
  tryGetMachineId (new_machine_update "machine-abc") = VStr "machine-abc" /\
  tryGetSessionId (new_machine_update "machine-abc") = VUndefined.
Proof. repeat split; vm_compute; reflexivity. Qed.

(** Over the earlier revisions of [session.ts] and [machine.ts] the
    union has the same thirteen literals and gives the same verdicts on
    the values above. *)
Example legacy_union_verdicts :
  error_codes (safeParse Legacy.ApiUpdateSchema scenario1_as_specified) =
    [code_invalid_literal; code_invalid_type] /\
  safeParse Legacy.ApiUpdateSchema scenario1 = success scenario1 /\
  safeParse Legacy.ApiUpdateSchema archive_session_update =
    failure [invalid_union_discriminator ApiUpdateType [Key "t"]] /\
  safeParse Legacy.ApiUpdateSchema delete_machine_update =
    failure [invalid_union_discriminator ApiUpdateType [Key "t"]] /\
  safeParse Legacy.ApiUpdateSchema bogus_variant =
    failure [invalid_union_discriminator ApiUpdateType [Key "t"]].
Proof. repeat split; vm_compute; reflexivity. Qed.

(** That revision of [session.ts] names the session identifier [id],
    the naming the later revision replaced by [sid]. *)
Example legacy_session_identifier_field :
  has_field "sid" Legacy.ApiUpdateNewSessionSchema = false /\
  has_field "id" Legacy.ApiUpdateNewSessionSchema = true /\
  has_field "sid" (ApiUpdateNewSessionSchema sample_limits) = true.
Proof. repeat split; reflexivity. Qed.

(** The fourth scenario of the specification, which is the first
    integration test of [helpers.test.ts]: filtering a mixed batch by
    [hasSessionId] and mapping [getSessionId] over what is left gives
    the session identifiers, in order. *)
Example scenario4_filter_then_get :
  map getSessionId
      (filter hasSessionId
              [new_session_update "session-123"; new_machine_update "machine-abc";
               scenario1; accountUpdate])
  = [Returned (VStr "session-123"); Returned (VStr "session-789")].
Proof. reflexivity. Qed.

(** The edge case of [helpers.test.ts]: on a carrying variant
    [getSessionId] returns the [sid] as it is, the empty string
    included. *)
Example getSessionId_empty_sid :
  getSessionId (VObj [("t", VStr "update-session"); ("sid", VStr "")])
  = Returned (VStr "").
Proof. reflexivity. Qed.

(* ================================================================== *)
(** * Further properties                                               *)
(* ================================================================== *)

(** ** github-casing.js: the fix                                       *)

Lemma startsWith_app (p s : string) :
  startsWith p s = true <-> exists rest, s = (p ++ rest)%string.
Proof.
  revert s. induction p as [|a p IH]; intros s; simpl.
  - split; [intros _; now exists s | reflexivity].
  - destruct s as [|b s].
    + split; [discriminate | intros [rest H]; discriminate H].
    + rewrite andb_true_iff, IH. split.
      * intros [Hab [rest ->]]. apply Ascii.eqb_eq in Hab. subst. now exists rest.
      * intros [rest [= -> ->]]. split; [apply Ascii.eqb_refl | now exists rest].
Qed.

Lemma replace_Github_pending (n : nat) (s : string) :
  replace_Github n s = replace_Github 0 (skip n s).
Proof.
  revert n. induction s as [|c s IH]; intros [|n]; try reflexivity.
  simpl. apply IH.
Qed.

(** The two equations of the replacement: at an occurrence of
    [Github] it writes [GitHub] and resumes after it; elsewhere it
    copies one character. *)
Lemma fixGithubCasing_at_match (rest : string) :
  fixGithubCasing ("Github" ++ rest) = ("GitHub" ++ fixGithubCasing rest)%string.
Proof.
  unfold fixGithubCasing. simpl. now rewrite replace_Github_pending.
Qed.

Lemma fixGithubCasing_elsewhere (c : ascii) (s : string) :
  startsWith "Github" (String c s) = false ->
  fixGithubCasing (String c s) = String c (fixGithubCasing s).
Proof.
  unfold fixGithubCasing. intros H.
  change (replace_Github 0 (String c s))
    with (if startsWith "Github" (String c s)
          then ("GitHub" ++ replace_Github 5 s)%string
          else String c (replace_Github 0 s)).
  now rewrite H.
Qed.

(** Induction along the scan of the replacement. *)
Lemma Github_scan_ind (Q : string -> Prop) :
  Q EmptyString ->
  (forall rest, Q rest -> Q ("Github" ++ rest)%string) ->
  (forall c s, startsWith "Github" (String c s) = false -> Q s -> Q (String c s)) ->
  forall s, Q s.
Proof.
  intros Hempty Hmatch Hcopy s.
  assert (H : forall n s, String.length s <= n -> Q s).
  { clear s. induction n as [|n IH]; intros s Hlen.
    - destruct s; [exact Hempty | simpl in Hlen; lia].
    - destruct s as [|c s]; [exact Hempty|].
      destruct (startsWith "Github" (String c s)) eqn:E.
      + apply startsWith_app in E as [rest E]. rewrite E.
        apply Hmatch, IH.
        simpl in E. injection E as _ E. subst s. simpl in Hlen. lia.
      + apply Hcopy; [exact E|]. apply IH. simpl in Hlen. lia. }
  now apply (H (String.length s)).
Qed.

Lemma fixGithubCasing_capitalises (s : string) :
  capitalises_h s (fixGithubCasing s).
Proof.
  induction s using Github_scan_ind.
  - exact I.
  - rewrite fixGithubCasing_at_match. simpl. repeat split; auto.
  - rewrite fixGithubCasing_elsewhere by assumption. simpl. auto.
Qed.

Lemma capitalises_h_startsWith (p s t : string) :
  no_capital_H p = true -> capitalises_h s t ->
  startsWith p t = true -> startsWith p s = true.
Proof.
  revert s t. induction p as [|a p IH]; intros s t Hp Hst H; [reflexivity|].
  destruct s as [|b s], t as [|b' t]; simpl in *; try contradiction; try discriminate.
  apply andb_true_iff in Hp as [Ha Hp]. apply andb_true_iff in H as [Hab H].
  apply Ascii.eqb_eq in Hab. subst b'. destruct Hst as [[->|[_ ->]] Hst].
  - rewrite Ascii.eqb_refl. simpl. now apply (IH s t).
  - now rewrite Ascii.eqb_refl in Ha.
Qed.

Lemma fixGithubCasing_removes (s : string) :
  includes "Github" (fixGithubCasing s) = false.
Proof.
  induction s using Github_scan_ind.
  - reflexivity.
  - rewrite fixGithubCasing_at_match. simpl. exact IHs.
  - rewrite fixGithubCasing_elsewhere by assumption.
    change (includes "Github" (String c (fixGithubCasing s)))
      with (startsWith "Github" (String c (fixGithubCasing s))
            || includes "Github" (fixGithubCasing s)).
    rewrite IHs, orb_false_r.
    destruct (startsWith "Github" (String c (fixGithubCasing s))) eqn:E;
      [|reflexivity].
    rewrite <- H. symmetry.
    apply (capitalises_h_startsWith "Github" (String c s)
             (String c (fixGithubCasing s))); [reflexivity | | exact E].
    simpl. split; [now left | apply fixGithubCasing_capitalises].
Qed.

Lemma fixGithubCasing_clean (s : string) :
  includes "Github" s = false -> fixGithubCasing s = s.
Proof.
  induction s as [|c s IH]; [reflexivity|].
  change (includes "Github" (String c s))
    with (startsWith "Github" (String c s) || includes "Github" s).
  intros H. apply orb_false_iff in H as [Hs Hi].
  rewrite fixGithubCasing_elsewhere by assumption. now rewrite IH.
Qed.

Lemma fixGithubCasing_writes_GitHub (s : string) :
  includes "Github" s = true -> includes "GitHub" (fixGithubCasing s) = true.
Proof.
  induction s using Github_scan_ind.
  - discriminate.
  - intros _. rewrite fixGithubCasing_at_match. reflexivity.
  - change (includes "Github" (String c s))
      with (startsWith "Github" (String c s) || includes "Github" s).
    rewrite H. simpl. intros Hi.
    rewrite fixGithubCasing_elsewhere by assumption.
    change (includes "GitHub" (String c (fixGithubCasing s)))
      with (startsWith "GitHub" (String c (fixGithubCasing s))
            || includes "GitHub" (fixGithubCasing s)).
    rewrite (IHs Hi). apply orb_true_r.
Qed.

Lemma capitalises_h_length (s t : string) :
  capitalises_h s t -> String.length t = String.length s.
Proof.
  revert t. induction s as [|a s IH]; intros [|b t]; simpl; try tauto.
  intros [_ H]. now rewrite (IH t).
Qed.

(** X1: whatever the name, the text that [fixGithubCasing] returns
    holds no [Github] any more, so the rule does not flag the fixed
    name and files no report for it. *)
Theorem fixGithubCasing_leaves_no_Github (name : string) :
  includes "Github" (fixGithubCasing name) = false /\
  hasIncorrectGithubCasing (fixGithubCasing name) = false /\
  reportIncorrectCasing (fixGithubCasing name) = [].
Proof.
  pose proof (fixGithubCasing_removes name) as H.
  assert (E : hasIncorrectGithubCasing (fixGithubCasing name) = false).
  { unfold hasIncorrectGithubCasing. rewrite H. now rewrite andb_false_r. }
  repeat split; [exact H | exact E|].
  unfold reportIncorrectCasing. now rewrite E.
Qed.

(** X2: [fixGithubCasing] only rewrites letters [h] into [H]: the
    result has the length of the name; it is the name itself when the
    name holds no [Github]; and fixing twice is fixing once. *)
Theorem fixGithubCasing_idempotent (name : string) :
  String.length (fixGithubCasing name) = String.length name /\
  capitalises_h name (fixGithubCasing name) /\
  (includes "Github" name = false -> fixGithubCasing name = name) /\
  fixGithubCasing (fixGithubCasing name) = fixGithubCasing name.
Proof.
  repeat split.
  - apply capitalises_h_length, fixGithubCasing_capitalises.
  - apply fixGithubCasing_capitalises.
  - apply fixGithubCasing_clean.
  - apply fixGithubCasing_clean, fixGithubCasing_removes.
Qed.

Lemma fixGithubCasing_idempotent_witness :
  fixGithubCasing "GitHubUser" = "GitHubUser".
Proof.
  apply (proj1 (proj2 (proj2 (fixGithubCasing_idempotent "GitHubUser")))).
  reflexivity.
Defined.

(** X3: every name the rule reports is changed by the fix it offers:
    the fixed text differs from the name, holds [GitHub], and is the
    [fix_text] of the one report filed. *)
Theorem reported_name_is_fixed (name : string) :
  hasIncorrectGithubCasing name = true ->
  fixGithubCasing name <> name /\
  includes "GitHub" (fixGithubCasing name) = true /\
  reportIncorrectCasing name =
    [ {| messageId := "incorrectCasing"; data_name := name;
         fix_text := fixGithubCasing name |} ].
Proof.
  intros H. unfold reportIncorrectCasing. rewrite H.
  unfold hasIncorrectGithubCasing in H.
  apply andb_true_iff in H as [H _]. apply andb_true_iff in H as [_ Hin].
  repeat split.
  - intros E. pose proof (fixGithubCasing_removes name) as Hr.
    rewrite E in Hr. congruence.
  - now apply fixGithubCasing_writes_GitHub.
Qed.

Lemma reported_name_is_fixed_witness :
  fixGithubCasing "GithubToGithubSync" <> "GithubToGithubSync" /\
  includes "GitHub" (fixGithubCasing "GithubToGithubSync") = true /\
  reportIncorrectCasing "GithubToGithubSync" =
    [ {| messageId := "incorrectCasing"; data_name := "GithubToGithubSync";
         fix_text := fixGithubCasing "GithubToGithubSync" |} ].
Proof.
  apply (reported_name_is_fixed "GithubToGithubSync"). reflexivity.
Defined.

(** X4: the visitor of the rule has a handler for exactly the node
    types that [isTypeLikeDeclaration] accepts: a declaration is
    reported only if it is type-like, has an identifier, and the
    identifier's name has the incorrect casing; variables, functions
    and other nodes are never reported. *)
Theorem github_casing_reports_type_like_only (node : DeclarationNode) :
  github_casing_on node =
    (if isTypeLikeDeclaration node
     then match node_id node with
          | Some name => reportIncorrectCasing name
          | None => []
          end
     else []) /\
  (github_casing_on node <> [] ->
   isTypeLikeDeclaration node = true /\
   exists name, node_id node = Some name /\ hasIncorrectGithubCasing name = true).
Proof.
  assert (E : github_casing_on node =
              if isTypeLikeDeclaration node
              then match node_id node with
                   | Some name => reportIncorrectCasing name
                   | None => []
                   end
              else []).
  { unfold github_casing_on, isTypeLikeDeclaration, github_casing_visitor,
      typeLikeTypes. simpl.
    repeat match goal with
           | |- context [String.eqb ?a ?b] => destruct (String.eqb a b)
           end; reflexivity. }
  split; [exact E|]. rewrite E.
  destruct (isTypeLikeDeclaration node); [|congruence].
  destruct (node_id node) as [name|]; [|congruence].
  intros H. split; [reflexivity|]. exists name. split; [reflexivity|].
  unfold reportIncorrectCasing in H.
  destruct (hasIncorrectGithubCasing name); [reflexivity | congruence].
Qed.

Lemma github_casing_reports_type_like_only_witness :
  isTypeLikeDeclaration {| node_type := "ClassDeclaration";
                           node_id := Some "GithubService" |} = true /\
  exists name,
    node_id {| node_type := "ClassDeclaration";
               node_id := Some "GithubService" |} = Some name /\
    hasIncorrectGithubCasing name = true.
Proof.
  apply (proj2 (github_casing_reports_type_like_only
                  {| node_type := "ClassDeclaration";
                     node_id := Some "GithubService" |})).
  vm_compute. discriminate.
Defined.

(** ** Validation is a projection                                      *)

Lemma mergeObjectSync_all_valid (pairs : list pair) :
  Forall (fun pr => status (pair_value pr) = st_valid) pairs ->
  mergeObjectSync pairs = Valid (VObj (finalObject pairs)).
Proof.
  intros H. rewrite Forall_forall in H. unfold mergeObjectSync.
  rewrite !existsb_all_false; [reflexivity| |];
    intros pr Hin; specialize (H pr Hin);
    destruct (pair_value pr); simpl in *; congruence.
Qed.

Lemma mergeArray_Valid (results : list ParseReturn) (r : value) :
  mergeArray results = Valid r ->
  r = VArr (map value_of results) /\
  Forall (fun res => status res = st_valid) results.
Proof.
  unfold mergeArray.
  destruct (existsb is_aborted results) eqn:Ea; [discriminate|].
  destruct (existsb is_dirty results) eqn:Ed; [discriminate|].
  intros [= <-]. split; [reflexivity|].
  apply existsb_false_Forall in Ea, Ed.
  rewrite Forall_forall in *. intros res Hin.
  specialize (Ea res Hin). specialize (Ed res Hin).
  destruct res; simpl in *; congruence.
Qed.

(** Whether the final object has a key: the pair with that key had a
    defined value, or the key was in the input. *)
Lemma finalObject_has_prop (pairs : list pair) (pr : pair) :
  distinct (map pair_key pairs) = true ->
  In pr pairs ->
  pair_key pr <> "__proto__" ->
  has_prop (pair_key pr) (finalObject pairs) =
  negb match value_of (pair_value pr) with VUndefined => true | _ => false end
  || alwaysSet pr.
Proof.
  induction pairs as [|pr0 pairs IH]; simpl; [tauto|].
  intros Hd [->|Hin] Hproto; apply andb_true_iff in Hd as [Hfresh Hd].
  - apply negb_true_iff in Hfresh.
    apply String.eqb_neq in Hproto. rewrite Hproto. simpl.
    destruct (negb match value_of (pair_value pr) with
                   | VUndefined => true | _ => false end
              || alwaysSet pr) eqn:Ekeep; simpl.
    + now rewrite String.eqb_refl.
    + now apply finalObject_missing.
  - assert (Hne : String.eqb (pair_key pr) (pair_key pr0) = false).
    { apply String.eqb_neq. intros E. apply negb_true_iff, mem_false in Hfresh.
      apply Hfresh. rewrite <- E. now apply in_map. }
    match goal with |- context [if ?c then _ else _] => destruct c end; simpl.
    + rewrite Hne. now apply IH.
    + now apply IH.
Qed.

Lemma finalObject_map_ext {A : Type} (f g : A -> pair) (l : list A) :
  (forall x, In x l -> finalObject [f x] = finalObject [g x]) ->
  finalObject (map f l) = finalObject (map g l).
Proof.
  induction l as [|x l IH]; intros H; [reflexivity|].
  change (map f (x :: l)) with ([f x] ++ map f l).
  change (map g (x :: l)) with ([g x] ++ map g l).
  rewrite !finalObject_app, (H x (or_introl eq_refl)).
  f_equal. apply IH. intros y Hy. apply H. now right.
Qed.

Lemma shape_get_In (key : string) (shape : list (string * schema)) (s : schema) :
  shape_get key shape = Some s -> In (key, s) shape.
Proof.
  induction shape as [|[k s'] shape IH]; simpl; [discriminate|].
  destruct (String.eqb key k) eqn:E.
  - apply String.eqb_eq in E. intros [= ->]. subst. now left.
  - intros H. right. now apply IH.
Qed.

(** What the lookup of a discriminated union found, when the union
    accepted the input. *)
Lemma parse_discriminatedUnion_found (d : string) (options : list schema)
    (p : path) (data : list (string * value)) (r : value) :
  parse (ZDiscriminatedUnion d options) p (VObj data) = Valid r ->
  exists k option_,
    prop d data = VStr k /\
    assoc k (optionsMap d (fun o => o) options) = Some option_ /\
    parse option_ p (VObj data) = Valid r.
Proof.
  rewrite parse_discriminatedUnion.
  destruct (prop d data) as [| | | | |k| |] eqn:E; try discriminate.
  simpl.
  destruct (assoc k (optionsMap d (fun o => o) options)) as [o|] eqn:Ek;
    [|discriminate].
  intros H. now exists k, o.
Qed.

(** A validator that yields discriminator values returns the string
    it was given. *)
Lemma discriminator_validator_output (sd : schema) (k : string) (p : path)
    (v out : value) :
  In k (getDiscriminator sd) -> parse sd p v = Valid out -> v = VStr k -> out = VStr k.
Proof.
  intros Hk H ->. destruct sd; simpl in Hk; try contradiction.
  - simpl in H. destruct (String.eqb k lit); [|discriminate]. now injection H as <-.
  - simpl in H. destruct (mem k values); [|discriminate]. now injection H as <-.
Qed.

(** Over a stripping schema the output of a successful parse is a
    fixed point: parsed again, under any path, it is accepted and
    returned as it is. *)
Lemma parse_stripping_fixed (s : schema) :
  stripping s = true ->
  forall (p p' : path) (v r : value),
    parse s p v = Valid r -> parse s p' r = Valid r.
Proof.
  induction s using schema_nested_ind; intros Hs p p' v r Hparse; simpl in Hs.
  - destruct (parse_string_Valid _ _ _ _ _ Hparse) as (str & -> & ->).
    exact (parse_Valid_path _ _ p' _ _ Hparse).
  - destruct v; try discriminate. now injection Hparse as <-.
  - destruct v; try discriminate. now injection Hparse as <-.
  - destruct (parse_literal_Valid _ _ _ _ Hparse) as (-> & ->).
    simpl. now rewrite String.eqb_refl.
  - destruct v; try discriminate. simpl in Hparse.
    destruct (mem s values) eqn:E; [|discriminate].
    injection Hparse as <-. simpl. now rewrite E.
  - destruct unknownKeys; [|discriminate]. simpl in Hs.
    apply andb_true_iff in Hs as [Hs Hall].
    apply andb_true_iff in Hs as [Hdistinct Hproto].
    apply negb_true_iff, mem_false in Hproto.
    rewrite forallb_forall in Hall. rewrite Forall_forall in H.
    destruct v as [| | | | | |items|data]; try discriminate.
    simpl in Hparse. rewrite app_nil_r in Hparse.
    apply mergeObjectSync_Valid in Hparse as [-> Hvalid].
    rewrite Forall_forall in Hvalid.
    set (pairs := parse_shape parse shape p data) in *.
    assert (Hentry : forall entry, In entry shape ->
              exists out,
                parse (snd entry) (p ++ [Key (fst entry)]) (prop (fst entry) data)
                  = Valid out /\
                prop (fst entry) (finalObject pairs) = out /\
                has_prop (fst entry) (finalObject pairs) =
                  negb match out with VUndefined => true | _ => false end
                  || has_prop (fst entry) data /\
                parse (snd entry) (p' ++ [Key (fst entry)]) out = Valid out /\
                fst entry <> "__proto__").
    { intros entry Hin.
      set (pr := mkPair (fst entry)
                        (parse (snd entry) (p ++ [Key (fst entry)])
                               (prop (fst entry) data))
                        (has_prop (fst entry) data)).
      assert (Hpr : In pr pairs).
      { unfold pairs, parse_shape. apply in_map_iff. now exists entry. }
      assert (Hne : fst entry <> "__proto__").
      { intros E. apply Hproto. rewrite <- E. now apply in_map. }
      pose proof (Hvalid pr Hpr) as Hv.
      pose proof (finalObject_prop pairs pr) as Hp.
      pose proof (finalObject_has_prop pairs pr) as Hh.
      unfold pairs in Hp, Hh. rewrite parse_shape_keys in Hp, Hh.
      specialize (Hp Hdistinct Hpr Hne). specialize (Hh Hdistinct Hpr Hne).
      subst pr. simpl in Hv, Hp, Hh.
      destruct (parse (snd entry) (p ++ [Key (fst entry)]) (prop (fst entry) data))
        as [out| |] eqn:E; try discriminate.
      exists out. simpl in Hp, Hh. repeat split; try assumption.
      apply (H entry Hin (Hall entry Hin) _ _ _ _ E). }
    simpl. rewrite app_nil_r.
    assert (Hfinal : finalObject (parse_shape parse shape p' (finalObject pairs))
                     = finalObject pairs).
    { unfold pairs at 2. unfold parse_shape. apply finalObject_map_ext.
      intros entry Hin.
      destruct (Hentry entry Hin) as (out & E & Hp & Hh & Hre & Hne).
      fold (parse_shape parse shape p data). fold pairs.
      rewrite Hp, Hh, Hre, E. unfold finalObject. simpl.
      apply String.eqb_neq in Hne. rewrite Hne. simpl.
      destruct out; simpl; try reflexivity;
        destruct (has_prop (fst entry) data); reflexivity. }
    rewrite mergeObjectSync_all_valid; [now rewrite Hfinal|].
    rewrite Forall_forall. intros pr Hin.
    unfold parse_shape in Hin. apply in_map_iff in Hin as (entry & <- & Hin).
    destruct (Hentry entry Hin) as (out & E & Hp & Hh & Hre & Hne).
    simpl. now rewrite Hp, Hre.
  - destruct v as [| | | | | |items|data]; try discriminate.
    simpl in Hparse. pose proof Hparse as Hmerge.
    apply mergeArray_Valid in Hparse as [-> Hvalid].
    simpl. rewrite <- Hmerge. f_equal.
    clear Hmerge. revert Hvalid. generalize 0.
    induction items as [|item items IH]; intros i Hvalid; simpl; [reflexivity|].
    simpl in Hvalid. inversion Hvalid as [|? ? Hhead Htail]; subst.
    rewrite (IH (S i) Htail). f_equal.
    destruct (parse s (p ++ [Index i]) item) as [out| |] eqn:E; try discriminate.
    simpl. exact (IHs Hs _ _ _ _ E).
  - destruct v; simpl in Hparse;
      try (injection Hparse as <-; reflexivity);
      pose proof (IHs Hs _ p' _ _ Hparse) as Hre;
      destruct r; simpl; try exact Hre; reflexivity.
  - destruct v; simpl in Hparse;
      try (injection Hparse as <-; reflexivity);
      pose proof (IHs Hs _ p' _ _ Hparse) as Hre;
      destruct r; simpl; try exact Hre; reflexivity.
  - discriminate.
  - rewrite forallb_forall in Hs. rewrite Forall_forall in H.
    destruct v as [| | | | | |items|data]; try discriminate.
    apply parse_discriminatedUnion_found in Hparse as (k & o & Hk & Ho & Hparse).
    destruct (assoc_optionsMap_Some _ _ _ _ _ Ho) as (o' & Hin & Hkin & ->).
    pose proof (H o' Hin (Hs o' Hin) _ p' _ _ Hparse) as Hre.
    unfold discriminatorValues in Hkin.
    destruct o' as [| | | | |shape unknownKeys| | | | |]; try contradiction.
    destruct (shape_get d shape) as [sd|] eqn:Esd; [|contradiction].
    apply shape_get_In in Esd.
    pose proof (Hs _ Hin) as Hso. simpl in Hso.
    destruct unknownKeys; [|discriminate]. simpl in Hso.
    apply andb_true_iff in Hso as [Hso _].
    apply andb_true_iff in Hso as [Hdistinct Hproto].
    apply negb_true_iff, mem_false in Hproto.
    destruct (parse_object_Valid _ _ _ _ _ Hparse) as (data' & Hdata & Hfields).
    injection Hdata as <-.
    destruct (Hfields d sd Esd) as (out & Hout & Hget).
    assert (Hd : d <> "__proto__").
    { intros E. apply Hproto. rewrite <- E.
      apply in_map_iff. now exists (d, sd). }
    specialize (Hget Hdistinct Hd).
    rewrite (discriminator_validator_output sd k _ _ _ Hkin Hout Hk) in Hget.
    simpl in Hparse. rewrite app_nil_r in Hparse.
    apply mergeObjectSync_Valid in Hparse as [Hr _].
    rewrite Hr in *. simpl in Hget.
    now rewrite (parse_discriminatedUnion_selected d options p' _ k _ Hget Ho).
Qed.

Lemma durable_schemas_stripping (L : StringLimits) :
  stripping (ApiUpdateSchema L) = true /\
  stripping (ApiUpdateContainerSchema L) = true /\
  forallb stripping (options_of ApiEphemeralUpdateSchema) = true.
Proof. repeat split; reflexivity. Qed.

(** X5: what [ApiUpdateSchema] returns for an accepted value is
    accepted again and returned unchanged; and so for
    [ApiUpdateContainerSchema]: validating a validated update or
    container is the identity. *)
Theorem durable_validation_is_projection (L : StringLimits) :
  (forall v r, safeParse (ApiUpdateSchema L) v = success r ->
               safeParse (ApiUpdateSchema L) r = success r) /\
  (forall v r, safeParse (ApiUpdateContainerSchema L) v = success r ->
               safeParse (ApiUpdateContainerSchema L) r = success r).
Proof.
  destruct (durable_schemas_stripping L) as (Hu & Hc & _).
  split; intros v r H; apply safeParse_success; apply safeParse_success in H.
  - exact (parse_stripping_fixed _ Hu _ _ _ _ H).
  - exact (parse_stripping_fixed _ Hc _ _ _ _ H).
Qed.

Lemma durable_validation_is_projection_witness :
  safeParse (ApiUpdateSchema sample_limits) scenario1 = success scenario1 /\
  safeParse (ApiUpdateContainerSchema sample_limits) (update_payload scenario1)
    = success (update_payload scenario1).
Proof.
  split.
  - apply (proj1 (durable_validation_is_projection sample_limits)
                 scenario1_with_extra scenario1).
    vm_compute. reflexivity.
  - apply (proj2 (durable_validation_is_projection sample_limits)
                 (update_payload scenario1_with_extra) (update_payload scenario1)).
    vm_compute. reflexivity.
Defined.

(** ** Unknown keys are dropped                                        *)

Lemma finalObject_keys (pairs : list pair) (k : string) :
  In k (map fst (finalObject pairs)) -> In k (map pair_key pairs).
Proof.
  induction pairs as [|pr pairs IH]; simpl; [tauto|].
  match goal with |- context [if ?c then _ else _] => destruct c end; simpl.
  - intros [H|H]; [now left | right; now apply IH].
  - intros H. right. now apply IH.
Qed.

(** The output of a stripping object has only keys of the shape. *)
Lemma strip_keys (shape : list (string * schema)) (p : path) (v r : value) :
  parse (ZObject shape strip) p v = Valid r ->
  exists props, r = VObj props /\
    forall k, In k (keys_of r) -> has_field k (ZObject shape strip) = true.
Proof.
  destruct v as [| | | | | |items|data]; try discriminate.
  simpl. rewrite app_nil_r. intros H.
  apply mergeObjectSync_Valid in H as [-> _].
  eexists. split; [reflexivity|].
  intros k Hk. simpl in Hk. apply finalObject_keys in Hk.
  rewrite parse_shape_keys in Hk. now apply mem_In.
Qed.

Lemma missing_key_undefined (k : string) (props : list (string * value)) :
  ~ In k (map fst props) -> prop k props = VUndefined.
Proof.
  induction props as [|[k' v] props IH]; simpl; [reflexivity|].
  intros H. destruct (String.eqb k k') eqn:E.
  - apply String.eqb_eq in E. subst. tauto.
  - apply IH. tauto.
Qed.

(** X6: the value [ApiUpdateSchema] returns has no key beyond those
    of the variant that accepted the input: fields the variant does not
    name are dropped, silently (the first scenario with an extra
    [traceId] validates to the scenario without it). *)
Theorem durable_output_has_variant_keys_only (L : StringLimits) (u r : value) :
  safeParse (ApiUpdateSchema L) u = success r ->
  exists variant,
    In variant (options_of (ApiUpdateSchema L)) /\
    safeParse variant u = success r /\
    forall k, In k (keys_of r) -> has_field k variant = true.
Proof.
  intros H. apply safeParse_success in H.
  unfold ApiUpdateSchema, z.discriminatedUnion in H.
  apply parse_discriminatedUnion_Valid in H
    as (data & k & o & -> & Hk & Hin & Hkin & Hparse).
  exists o. split; [exact Hin|]. split; [now apply safeParse_success|].
  assert (Hstrip : exists shape, o = ZObject shape strip).
  { simpl in Hin.
    repeat (destruct Hin as [<-|Hin]; [eexists; reflexivity|]). contradiction. }
  destruct Hstrip as [shape ->].
  now destruct (strip_keys _ _ _ _ Hparse) as (props & _ & Hkeys).
Qed.

Lemma durable_output_has_variant_keys_only_witness :
  exists variant,
    In variant (options_of (ApiUpdateSchema sample_limits)) /\
    safeParse variant scenario1_with_extra = success scenario1 /\
    forall k, In k (keys_of scenario1) -> has_field k variant = true.
Proof.
  apply (durable_output_has_variant_keys_only sample_limits
           scenario1_with_extra scenario1).
  vm_compute. reflexivity.
Defined.

(** ** The ephemeral variants exclude one another                      *)

(** A member of an ephemeral variant has the variant's literal as its
    [type], in the input and in the output. *)
Lemma ephemeral_variant_type (variant : schema) (p : path) (v r : value) :
  In variant (options_of ApiEphemeralUpdateSchema) ->
  parse variant p v = Valid r ->
  exists lit,
    discriminatorValues "type" variant = [lit] /\
    get "type" v = VStr lit /\ get "type" r = VStr lit.
Proof.
  intros Hin H. simpl in Hin.
  repeat (destruct Hin as [<-|Hin]); [..|contradiction];
    (eexists; split; [reflexivity|]; split;
     [ destruct (parse_object_Valid _ _ _ _ _ H) as (data & -> & Hfields);
       destruct (Hfields "type" _ (or_introl eq_refl)) as (out & Hout & _);
       apply parse_literal_Valid in Hout as [Hv _]; exact Hv
     | eapply variant_discriminator; [exact H | reflexivity | discriminate] ]).
Qed.

Lemma ephemeral_variant_by_type (o1 o2 : schema) (lit : string) :
  In o1 (options_of ApiEphemeralUpdateSchema) ->
  In o2 (options_of ApiEphemeralUpdateSchema) ->
  discriminatorValues "type" o1 = [lit] ->
  discriminatorValues "type" o2 = [lit] ->
  o1 = o2.
Proof.
  intros H1 H2 E1 E2. simpl in H1, H2.
  repeat (destruct H1 as [<-|H1]); [..|contradiction];
    repeat (destruct H2 as [<-|H2]); try contradiction;
    try reflexivity; simpl in E1, E2; congruence.
Qed.

Lemma ephemeral_variants_exclusive_parse (o1 o2 : schema) (v r1 r2 : value) :
  In o1 (options_of ApiEphemeralUpdateSchema) ->
  In o2 (options_of ApiEphemeralUpdateSchema) ->
  safeParse o1 v = success r1 ->
  safeParse o2 v = success r2 ->
  o1 = o2 /\ r1 = r2.
Proof.
  intros H1 H2 P1 P2.
  apply safeParse_success in P1, P2.
  destruct (ephemeral_variant_type _ _ _ _ H1 P1) as (l1 & E1 & T1 & _).
  destruct (ephemeral_variant_type _ _ _ _ H2 P2) as (l2 & E2 & T2 & _).
  assert (l1 = l2) by congruence. subst l2.
  assert (o1 = o2) by exact (ephemeral_variant_by_type _ _ _ H1 H2 E1 E2).
  subst. split; [reflexivity | congruence].
Qed.

(** X7: no input is accepted by two variants of the ephemeral union:
    an accepted input has the [type] literal of the accepting variant,
    and the four literals differ; so the order in which the plain
    union lists its variants has no influence on which one accepts. *)
Theorem ephemeral_variants_exclusive (o1 o2 : schema) (v r1 r2 : value) :
  In o1 (options_of ApiEphemeralUpdateSchema) ->
  In o2 (options_of ApiEphemeralUpdateSchema) ->
  safeParse o1 v = success r1 ->
  safeParse o2 v = success r2 ->
  o1 = o2 /\ r1 = r2.
Proof.
  exact (ephemeral_variants_exclusive_parse o1 o2 v r1 r2).
Qed.

Lemma ephemeral_variants_exclusive_witness :
  ApiEphemeralMachineStatusUpdateSchema = ApiEphemeralMachineStatusUpdateSchema /\
  machineStatusEphemeral = machineStatusEphemeral.
Proof.
  apply (ephemeral_variants_exclusive
           ApiEphemeralMachineStatusUpdateSchema
           ApiEphemeralMachineStatusUpdateSchema
           machineStatusEphemeral machineStatusEphemeral machineStatusEphemeral).
  - simpl. tauto.
  - simpl. tauto.
  - reflexivity.
  - reflexivity.
Defined.

(** What the ephemeral union accepts, one of its variants accepts. *)
Lemma ephemeral_accepted_by_variant (v r : value) :
  safeParse ApiEphemeralUpdateSchema v = success r ->
  exists variant,
    In variant (options_of ApiEphemeralUpdateSchema) /\
    parse variant [] v = Valid r.
Proof.
  intros H. pose proof (ephemeral_union_parse v) as E. cbv zeta in E.
  rewrite E in H. clear E. unfold first_valid in H.
  destruct (find is_valid _) as [res|] eqn:F; [|discriminate].
  apply find_some in F as [Hin Hvalid].
  apply in_map_iff in Hin as (o & <- & Hin).
  exists o. split; [exact Hin|].
  destruct (parse o [] v); try discriminate. simpl in H. congruence.
Qed.

Lemma defined_prop_is_key (k : string) (props : list (string * value)) (s : string) :
  prop k props = VStr s -> In k (map fst props).
Proof.
  intros H. destruct (in_dec string_dec k (map fst props)) as [Hin|Hout];
    [exact Hin|].
  rewrite (missing_key_undefined _ _ Hout) in H. discriminate.
Qed.

(** X8: a validated ephemeral event validates again to itself: the
    variant that accepted the input accepts its own output, and no
    variant listed before it does. *)
Theorem ephemeral_validation_is_projection (v r : value) :
  safeParse ApiEphemeralUpdateSchema v = success r ->
  safeParse ApiEphemeralUpdateSchema r = success r.
Proof.
  intros H.
  destruct (ephemeral_accepted_by_variant _ _ H) as (o & Hin & Hparse).
  destruct (durable_schemas_stripping sample_limits) as (_ & _ & Hstrip).
  rewrite forallb_forall in Hstrip.
  pose proof (parse_stripping_fixed o (Hstrip o Hin) _ [] _ _ Hparse) as Hre.
  pose proof (ephemeral_union_parse r) as E. cbv zeta in E. rewrite E. clear E.
  unfold first_valid.
  destruct (find is_valid
              (map (fun option_ => parse option_ [] r)
                   (options_of ApiEphemeralUpdateSchema))) as [res|] eqn:F.
  - apply find_some in F as [Hres Hvalid].
    apply in_map_iff in Hres as (o' & <- & Hin').
    destruct (parse o' [] r) as [out| |] eqn:E'; try discriminate.
    simpl. f_equal.
    assert (P1 : safeParse o' r = success out) by now apply safeParse_success.
    assert (P2 : safeParse o r = success r) by now apply safeParse_success.
    now destruct (ephemeral_variants_exclusive_parse o' o r out r Hin' Hin P1 P2).
  - assert (Hnone : is_valid (parse o [] r) = false).
    { apply (find_none _ _ F). apply in_map_iff. now exists o. }
    rewrite Hre in Hnone. discriminate.
Qed.

Lemma ephemeral_validation_is_projection_witness :
  safeParse ApiEphemeralUpdateSchema machineStatusEphemeral
  = success machineStatusEphemeral.
Proof.
  apply (ephemeral_validation_is_projection
           (VObj [("type", VStr "machine-status");
                  ("machineId", VStr "machine-status-id");
                  ("online", VBool true); ("timestamp", VNum 0);
                  ("seenBy", VStr "relay")])
           machineStatusEphemeral).
  vm_compute. reflexivity.
Defined.

(** ** The two discriminator namespaces                                *)

Lemma durable_variants_have_no_type (L : StringLimits) (variant : schema) :
  In variant (options_of (ApiUpdateSchema L)) -> has_field "type" variant = false.
Proof.
  intros Hin. simpl in Hin.
  repeat (destruct Hin as [<-|Hin]; [reflexivity|]). contradiction.
Qed.

Lemma ephemeral_variants_have_no_t (variant : schema) :
  In variant (options_of ApiEphemeralUpdateSchema) ->
  has_field "t" variant = false /\ exists shape, variant = ZObject shape strip.
Proof.
  intros Hin. simpl in Hin.
  repeat (destruct Hin as [<-|Hin]; [split; [reflexivity | eexists; reflexivity]|]).
  contradiction.
Qed.

(** X9: the two unions keep their discriminators apart on what they
    return: a validated durable update has no [type] key and is
    rejected by the ephemeral union; a validated ephemeral event has no
    [t] key and is rejected by the durable union as an unknown
    discriminator.  On raw input the unions are not disjoint: a value
    that carries the fields of both a delete-session update and a
    machine-status event is accepted by both, each dropping the fields
    of the other. *)
Theorem namespaces_disjoint_on_validated (L : StringLimits) :
  (forall u r, safeParse (ApiUpdateSchema L) u = success r ->
               is_success (safeParse ApiEphemeralUpdateSchema r) = false) /\
  (forall v r, safeParse ApiEphemeralUpdateSchema v = success r ->
               safeParse (ApiUpdateSchema L) r =
               failure [invalid_union_discriminator ApiUpdateType [Key "t"]]) /\
  is_success (safeParse (ApiUpdateSchema L) both_namespaces) = true /\
  is_success (safeParse ApiEphemeralUpdateSchema both_namespaces) = true.
Proof.
  split; [|split; [|split]].
  - intros u r H.
    destruct (safeParse ApiEphemeralUpdateSchema r) as [r'|] eqn:E; [|reflexivity].
    exfalso.
    destruct (ephemeral_accepted_by_variant _ _ E) as (oe & Hoe & Pe).
    destruct (ephemeral_variant_type _ _ _ _ Hoe Pe) as (lit & _ & Htype & _).
    apply safeParse_success in H.
    unfold ApiUpdateSchema, z.discriminatedUnion in H.
    apply parse_discriminatedUnion_Valid in H
      as (data & k & o & -> & Hk & Hin & Hkin & Hparse).
    pose proof (durable_variants_have_no_type L o Hin) as Hno.
    assert (Hstrip : exists shape, o = ZObject shape strip).
    { simpl in Hin.
      repeat (destruct Hin as [<-|Hin]; [eexists; reflexivity|]). contradiction. }
    destruct Hstrip as [shape ->].
    destruct (strip_keys _ _ _ _ Hparse) as (props & -> & Hkeys).
    simpl in Htype. apply defined_prop_is_key in Htype.
    specialize (Hkeys "type" Htype). congruence.
  - intros v r H.
    destruct (ephemeral_accepted_by_variant _ _ H) as (oe & Hoe & Pe).
    destruct (ephemeral_variants_have_no_t oe Hoe) as (Hno & shape & ->).
    destruct (strip_keys _ _ _ _ Pe) as (props & -> & Hkeys).
    apply api_update_unknown_discriminator.
    intros t Ht. apply defined_prop_is_key in Ht.
    specialize (Hkeys "t" Ht). congruence.
  - unfold both_namespaces, safeParse, ApiUpdateSchema, z.discriminatedUnion.
    rewrite (parse_discriminatedUnion_selected "t" _ [] _ "delete-session"
               ApiDeleteSessionSchema); reflexivity.
  - reflexivity.
Qed.

Lemma namespaces_disjoint_on_validated_witness :
  is_success (safeParse ApiEphemeralUpdateSchema scenario1) = false /\
  safeParse (ApiUpdateSchema sample_limits) machineStatusEphemeral =
    failure [invalid_union_discriminator ApiUpdateType [Key "t"]].
Proof.
  split.
  - apply (proj1 (namespaces_disjoint_on_validated sample_limits)
                 scenario1 scenario1).
    vm_compute. reflexivity.
  - apply (proj1 (proj2 (namespaces_disjoint_on_validated sample_limits))
                 machineStatusEphemeral machineStatusEphemeral).
    reflexivity.
Defined.

(** ** Versioned values                                                *)

(** X10: whatever [VersionedValueSchema] accepts,
    [NullableVersionedValueSchema] accepts with the same output; the
    nullable schema accepts in addition a [null] value, which the
    other rejects with an [invalid_type] issue at [value]. *)
Theorem versioned_value_is_nullable_versioned (p : path) (v r : value) :
  (parse VersionedValueSchema p v = Valid r ->
   parse NullableVersionedValueSchema p v = Valid r) /\
  (forall version,
     parse NullableVersionedValueSchema p
           (VObj [("version", VNum version); ("value", VNull)])
     = Valid (VObj [("version", VNum version); ("value", VNull)]) /\
     parse VersionedValueSchema p
           (VObj [("version", VNum version); ("value", VNull)])
     = Aborted [invalid_type (a_type ty_string) ty_null (p ++ [Key "value"])]).
Proof.
  split.
  - destruct v as [| | | | | |items|data]; try discriminate.
    unfold VersionedValueSchema, NullableVersionedValueSchema, z.object.
    cbn [parse parse_shape map fst snd app zm.nullable z.string z.number].
    destruct (prop "version" data), (prop "value" data);
      cbn; intros H; try discriminate H; exact H.
  - intros version. split; reflexivity.
Qed.

Lemma versioned_value_is_nullable_versioned_witness :
  parse NullableVersionedValueSchema []
        (VObj [("version", VNum 2); ("value", VStr "state")])
  = Valid (VObj [("version", VNum 2); ("value", VStr "state")]).
Proof.
  apply (proj1 (versioned_value_is_nullable_versioned []
                  (VObj [("version", VNum 2); ("value", VStr "state")])
                  (VObj [("version", VNum 2); ("value", VStr "state")]))).
  reflexivity.
Defined.

(** ** Bounds of the session variants                                  *)

(** X11: an update-session that carries only its [sid] is accepted
    exactly when the [sid] has between 1 and [ID_MAX] characters: the
    empty [sid] fails with [too_small], a longer one with [too_big],
    both at the path [sid]; the accepted update is returned as it is. *)
Theorem update_session_sid_bounds (L : StringLimits) (sid : string) :
  safeParse (ApiUpdateSchema L) (update_session_update sid) =
    if Nat.ltb (String.length sid) 1
    then failure [too_small 1 [Key "sid"]]
    else if Nat.ltb (ID_MAX L) (String.length sid)
         then failure [too_big (ID_MAX L) [Key "sid"]]
         else success (update_session_update sid).
Proof.
  unfold safeParse, update_session_update, ApiUpdateSchema, z.discriminatedUnion.
  rewrite (parse_discriminatedUnion_selected "t" _ [] _ "update-session"
             (ApiUpdateSessionStateSchema L)); [|reflexivity|reflexivity].
  unfold ApiUpdateSessionStateSchema, z.object.
  cbn -[Nat.ltb String.length]. unfold string_checks.
  destruct (Nat.ltb_spec (String.length sid) 1) as [Hsmall|Hsmall];
    destruct (Nat.ltb_spec (ID_MAX L) (String.length sid)) as [Hbig|Hbig];
    try reflexivity.
  lia.
Qed.

(** X12: a new-session update with well-typed fields is accepted
    exactly when its [sid] has between 1 and [ID_MAX] characters, its
    [metadata] at most [ENCRYPTED_STATE_MAX], its [agentState] is
    [null] or has at most [ENCRYPTED_STATE_MAX], and its
    [dataEncryptionKey] is [null] or has at most
    [DATA_ENCRYPTION_KEY_MAX]. *)
Theorem new_session_bounds (L : StringLimits) (sid metadata : string)
    (agentState dataEncryptionKey : option string) :
  is_success (safeParse (ApiUpdateSchema L)
                (new_session_with sid metadata agentState dataEncryptionKey))
  = Nat.leb 1 (String.length sid)
    && Nat.leb (String.length sid) (ID_MAX L)
    && Nat.leb (String.length metadata) (ENCRYPTED_STATE_MAX L)
    && fits (ENCRYPTED_STATE_MAX L) agentState
    && fits (DATA_ENCRYPTION_KEY_MAX L) dataEncryptionKey.
Proof.
  unfold safeParse, new_session_with, ApiUpdateSchema, z.discriminatedUnion.
  rewrite (parse_discriminatedUnion_selected "t" _ [] _ "new-session"
             (ApiUpdateNewSessionSchema L)); [|reflexivity|reflexivity].
  unfold ApiUpdateNewSessionSchema, z.object, fits.
  rewrite !Nat.leb_antisym.
  destruct agentState as [state|], dataEncryptionKey as [key|];
    rewrite ?Nat.leb_antisym;
    cbn -[Nat.ltb String.length]; unfold string_checks;
    repeat match goal with
           | |- context [Nat.ltb ?a ?b] => destruct (Nat.ltb a b)
           end; reflexivity.
Qed.

(** ** kv-batch-update                                                 *)

Lemma kv_changes_parse (p : path) (changes : list (string * option string * Z)) :
  forall i,
    parse_items
      (parse (z.object [("key", z.string); ("value", z.string .> zm.nullable);
                        ("version", z.number)]))
      p i (map kv_change changes)
    = map (fun c => Valid (kv_change c)) changes.
Proof.
  induction changes as [|[[key val] version] changes IH]; intros i;
    [reflexivity|].
  simpl map. simpl parse_items. rewrite IH. f_equal.
  destruct val; reflexivity.
Qed.

Lemma mergeArray_of_valid (values : list value) :
  mergeArray (map Valid values) = Valid (VArr values).
Proof.
  unfold mergeArray.
  rewrite !existsb_all_false.
  - now rewrite map_map, map_id.
  - intros r Hin. apply in_map_iff in Hin as (x & <- & _). reflexivity.
  - intros r Hin. apply in_map_iff in Hin as (x & <- & _). reflexivity.
Qed.

(** X13: a kv-batch-update built from any list of changes, the empty
    list included, each with a string key, a string or [null] value and
    a numeric version, is accepted by [ApiUpdateSchema] and returned
    as it is. *)
Theorem kv_batch_update_round_trip (L : StringLimits)
    (changes : list (string * option string * Z)) :
  safeParse (ApiUpdateSchema L) (kv_batch_update changes)
  = success (kv_batch_update changes).
Proof.
  unfold safeParse, kv_batch_update, ApiUpdateSchema, z.discriminatedUnion.
  rewrite (parse_discriminatedUnion_selected "t" _ [] _ "kv-batch-update"
             ApiKvBatchUpdateSchema); [|reflexivity|reflexivity].
  unfold ApiKvBatchUpdateSchema.
  cbn [parse parse_shape map fst snd app z.object z.array z.literal
       prop has_prop String.eqb Ascii.eqb Bool.eqb orb].
  rewrite kv_changes_parse.
  replace (map (fun c => Valid (kv_change c)) changes)
    with (map Valid (map kv_change changes)) by now rewrite map_map.
  rewrite mergeArray_of_valid. reflexivity.
Qed.

(** ** The container and the payload                                   *)

(** X14: every value that [ApiUpdateContainerSchema] accepts,
    [UpdatePayloadSchema] accepts too: the payload schema asks no more
    of the body than that it be an object with a string [t]. *)
Theorem container_is_accepted_as_payload (L : StringLimits) (v r : value) :
  safeParse (ApiUpdateContainerSchema L) v = success r ->
  is_success (safeParse UpdatePayloadSchema v) = true.
Proof.
  intros H. apply safeParse_success in H.
  unfold ApiUpdateContainerSchema, z.object in H.
  apply parse_object_Valid in H as (data & -> & Hfields).
  assert (Hvalid : status (parse UpdatePayloadSchema [] (VObj data)) = st_valid).
  { apply parse_object_accepts.
    intros key validator [[= <- <-]|[[= <- <-]|[[= <- <-]|[[= <- <-]|[]]]]].
    - destruct (Hfields "id" z.string) as (out & -> & _); [simpl; tauto | reflexivity].
    - destruct (Hfields "seq" z.number) as (out & -> & _); [simpl; tauto | reflexivity].
    - destruct (Hfields "body" (ApiUpdateSchema L)) as (out & Hbody & _);
        [simpl; tauto|].
      unfold ApiUpdateSchema, z.discriminatedUnion in Hbody.
      apply parse_discriminatedUnion_Valid in Hbody
        as (bdata & k & o & -> & Hk & _).
      apply parse_object_accepts.
      intros key validator [[= <- <-]|[]]. simpl. now rewrite Hk.
    - destruct (Hfields "createdAt" z.number) as (out & -> & _);
        [simpl; tauto | reflexivity]. }
  unfold safeParse.
  destruct (parse UpdatePayloadSchema [] (VObj data)); [reflexivity | |];
    discriminate Hvalid.
Qed.

Lemma container_is_accepted_as_payload_witness :
  is_success (safeParse UpdatePayloadSchema (update_payload scenario1)) = true.
Proof.
  apply (container_is_accepted_as_payload sample_limits
           (update_payload scenario1) (update_payload scenario1)).
  vm_compute. reflexivity.
Defined.

(** ** protocol-helpers.js                                             *)

Lemma includes_here (marker rest : string) :
  includes marker (marker ++ rest) = true.
Proof.
  assert (H : startsWith marker (marker ++ rest) = true)
    by (apply (proj2 (startsWith_app marker (marker ++ rest))); now exists rest).
  destruct (marker ++ rest)%string; simpl; now rewrite H.
Qed.

Lemma includes_append (marker before rest : string) :
  includes marker (before ++ marker ++ rest) = true.
Proof.
  induction before as [|c before IH]; [exact (includes_here marker rest)|].
  simpl. rewrite IH. apply orb_true_r.
Qed.

(** X15: in a file whose path holds [.spec.], [.test.], [__tests__] or
    [__mocks__] anywhere, in a directory name as well as in the file
    name, the rule has no handler and reports no node. *)
Theorem protocol_helpers_skip_test_files (before marker rest : string)
    (node : EsNode) :
  In marker [".spec."; ".test."; "__tests__"; "__mocks__"] ->
  isTestFile (Some (before ++ marker ++ rest)%string) = true /\
  protocol_helpers_on (Some (before ++ marker ++ rest)%string) node = [].
Proof.
  intros Hm.
  assert (Htest : isTestFile (Some (before ++ marker ++ rest)%string) = true).
  { assert (Hinc : includes marker (before ++ marker ++ rest) = true)
      by apply includes_append.
    unfold isTestFile.
    destruct (before ++ marker ++ rest)%string as [|c s] eqn:E.
    - destruct before; [|discriminate E].
      simpl in Hm. simpl in E.
      destruct Hm as [<-|[<-|[<-|[<-|[]]]]]; discriminate E.
    - simpl in Hm.
      destruct Hm as [<-|[<-|[<-|[<-|[]]]]]; rewrite Hinc;
        rewrite ?orb_true_r; reflexivity. }
  split; [exact Htest|].
  unfold protocol_helpers_on, protocol_helpers_visitor. now rewrite Htest.
Qed.

Lemma protocol_helpers_skip_test_files_witness :
  isTestFile (Some "/path/to/__tests__/file.ts") = true /\
  protocol_helpers_on (Some "/path/to/__tests__/file.ts")
                      (member (member (mkEsNode "Identifier" (Some "update") None None)
                                      "body") "sid") = [].
Proof.
  apply (protocol_helpers_skip_test_files "/path/to/" "__tests__" "/file.ts").
  simpl. tauto.
Defined.

(** X16: outside test files, a member access [x.body.sid] is reported
    once as [avoidDirectSid] and [x.body.machineId] once as
    [avoidDirectMachineId], whatever the expression [x]; an access to
    another property of [x.body], and [y.sid] for an identifier [y],
    are not reported. *)
Theorem protocol_helpers_detects_body_access (filename : option string)
    (x : EsNode) :
  isTestFile filename = false ->
  protocol_helpers_on filename (member (member x "body") "sid")
    = ["avoidDirectSid"] /\
  protocol_helpers_on filename (member (member x "body") "machineId")
    = ["avoidDirectMachineId"] /\
  (forall other, other <> "sid" -> other <> "machineId" ->
     protocol_helpers_on filename (member (member x "body") other) = []) /\
  (forall y propertyName,
     protocol_helpers_on filename
       (member (mkEsNode "Identifier" (Some y) None None) propertyName) = []).
Proof.
  intros Hfile.
  unfold protocol_helpers_on, protocol_helpers_visitor. rewrite Hfile.
  repeat split; try reflexivity.
  - intros other Hsid Hmid. simpl.
    unfold on_MemberExpression, matchesBodyPropertyPattern, name_is. simpl.
    apply String.eqb_neq in Hsid, Hmid. now rewrite Hsid, Hmid.
  - intros y propertyName. simpl.
    unfold on_MemberExpression, matchesBodyPropertyPattern, name_is. simpl.
    destruct (String.eqb propertyName "sid"),
             (String.eqb propertyName "machineId"); reflexivity.
Qed.

Lemma protocol_helpers_detects_body_access_witness :
  protocol_helpers_on (Some "src/sync/handler.ts")
    (member (member (mkEsNode "Identifier" (Some "update") None None) "body") "sid")
    = ["avoidDirectSid"].
Proof.
  apply (protocol_helpers_detects_body_access (Some "src/sync/handler.ts")
           (mkEsNode "Identifier" (Some "update") None None)).
  reflexivity.
Defined.

(** ** errors: status codes and safe responses                         *)

Lemma memZ_In (x : Z) (l : list Z) : Errors.memZ x l = true -> In x l.
Proof.
  induction l as [|y l IH]; simpl; [discriminate|].
  intros H. apply orb_true_iff in H as [H|H].
  - left. symmetry. now apply Z.eqb_eq.
  - right. now apply IH.
Qed.

(** X17: whatever is thrown, [getErrorStatusCode] returns one of the
    eight codes of [ErrorStatusCode]: a numeric [status] outside them
    (or [NaN]) becomes 500, and for an [AppError] only 400, 401, 404,
    409 and 500 can come out. *)
Theorem getErrorStatusCode_in_range (err : Errors.Thrown) :
  In (Errors.getErrorStatusCode err) Errors.ErrorStatusCode /\
  (Errors.isAppError err = true ->
   In (Errors.getErrorStatusCode err) [400; 401; 404; 409; 500]%Z).
Proof.
  assert (Happ : forall c,
            In (Errors.getStatusCodeFromErrorCode c) [400; 401; 404; 409; 500]%Z).
  { intros c. unfold Errors.getStatusCodeFromErrorCode.
    destruct (mem c Errors.clientErrors); [destruct (includes "NOT_FOUND" c)|];
      [simpl; tauto | simpl; tauto|].
    destruct (mem c Errors.authErrors); [simpl; tauto|].
    destruct (mem c Errors.conflictErrors); simpl; tauto. }
  assert (Hstatus : forall o : option value,
            In (match o with
                | Some (VNum st) =>
                    if Errors.memZ st Errors.ErrorStatusCode then st else 500%Z
                | Some _ => 500%Z
                | None => 500%Z
                end) Errors.ErrorStatusCode).
  { intros [[| | |st| | | |]|]; try (simpl; tauto).
    destruct (Errors.memZ st Errors.ErrorStatusCode) eqn:E.
    - apply memZ_In in E. exact E.
    - simpl; tauto. }
  split.
  - destruct err as [e|e|v]; simpl.
    + specialize (Happ (Errors.code e)). simpl in Happ |- *. tauto.
    + apply Hstatus.
    + apply Hstatus.
  - destruct err as [e|e|v]; simpl; try discriminate. intros _. apply Happ.
Qed.

(** X18: an error code gives status 404 exactly when it is one of the
    four [*NOT_FOUND] codes of [clientErrors]; among the declared
    [ErrorCodes] these are the codes whose text contains [NOT_FOUND];
    every code the three lists name is a declared one, and a code in
    none of them gives 500. *)
Theorem status_404_iff_not_found (c : string) :
  (Errors.getStatusCodeFromErrorCode c = 404%Z <->
   In c ["NOT_FOUND"; "SESSION_NOT_FOUND"; "RESOURCE_NOT_FOUND";
         "PRODUCT_NOT_FOUND"]) /\
  (In c Errors.ErrorCodes ->
   (Errors.getStatusCodeFromErrorCode c = 404%Z <->
    includes "NOT_FOUND" c = true)) /\
  incl (Errors.clientErrors ++ Errors.authErrors ++ Errors.conflictErrors)
       Errors.ErrorCodes /\
  (~ In c (Errors.clientErrors ++ Errors.authErrors ++ Errors.conflictErrors) ->
   Errors.getStatusCodeFromErrorCode c = 500%Z).
Proof.
  split; [|split; [|split]].
  - split.
    + unfold Errors.getStatusCodeFromErrorCode.
      destruct (mem c Errors.clientErrors) eqn:E.
      * apply mem_In in E. unfold Errors.clientErrors in E. simpl in E.
        repeat (destruct E as [<-|E]; [vm_compute; intros H; tauto || discriminate H|]).
        destruct E.
      * destruct (mem c Errors.authErrors); [discriminate|].
        destruct (mem c Errors.conflictErrors); discriminate.
    + simpl. intros H.
      repeat (destruct H as [<-|H]; [reflexivity|]). destruct H.
  - unfold Errors.ErrorCodes. simpl. intros H.
    repeat (destruct H as [<-|H];
            [vm_compute; split; intros H'; reflexivity || discriminate H'|]).
    destruct H.
  - intros x Hx. vm_compute in Hx.
    repeat (destruct Hx as [<-|Hx]; [vm_compute; tauto|]). destruct Hx.
  - intros Hnot. unfold Errors.getStatusCodeFromErrorCode.
    assert (H1 : mem c Errors.clientErrors = false).
    { apply mem_false. intros H. apply Hnot. apply in_or_app. now left. }
    assert (H2 : mem c Errors.authErrors = false).
    { apply mem_false. intros H. apply Hnot. apply in_or_app. right.
      apply in_or_app. now left. }
    assert (H3 : mem c Errors.conflictErrors = false).
    { apply mem_false. intros H. apply Hnot. apply in_or_app. right.
      apply in_or_app. now right. }
    now rewrite H1, H2, H3.
Qed.


(** X20: for an [AppError] the response is built from the fields
    [toSafeJSON] exposes: its message and code, and [canTryAgain] only
    when it is true; the development flag changes nothing. *)
Theorem createSafeError_of_AppError
    (String_ : value -> string) (new_Error_stack : option string) (now_ISO : string)
    (e : Errors.AppError) (requestId : option string) (dev1 dev2 : option bool) :
  fst (Errors.createSafeError String_ new_Error_stack now_ISO (Errors.ThrownAppError e) requestId dev1)
    = fst (Errors.createSafeError String_ new_Error_stack now_ISO (Errors.ThrownAppError e) requestId dev2) /\
  Errors.resp_error (fst (Errors.createSafeError String_ new_Error_stack now_ISO (Errors.ThrownAppError e) requestId dev1))
    = Errors.safe_message (Errors.toSafeJSON e) /\
  Errors.resp_code (fst (Errors.createSafeError String_ new_Error_stack now_ISO (Errors.ThrownAppError e) requestId dev1))
    = Some (Errors.safe_code (Errors.toSafeJSON e)) /\
  Errors.resp_canTryAgain (fst (Errors.createSafeError String_ new_Error_stack now_ISO (Errors.ThrownAppError e) requestId dev1))
    = (if Errors.safe_canTryAgain (Errors.toSafeJSON e) then Some true else None) /\
  Errors.log_context (snd (Errors.createSafeError String_ new_Error_stack now_ISO (Errors.ThrownAppError e) requestId dev1))
    = Errors.context e.
Proof.
  repeat split; reflexivity.
Qed.


(** X21: wrapping a caught value with [AppError.fromUnknown] hides it
    from the client and keeps it for the log: the safe response shows
    the given message and code in either mode, the status code follows
    from the given code alone (a [status] of the wrapped error is not
    read), [toJSON] names the wrapped error's message as cause when it
    is an [Error] with a non-empty message and has no cause otherwise,
    and [withCause] builds the same error as [fromUnknown] with the
    default retry flag. *)
Theorem fromUnknown_wraps
    (String_ : value -> string) (new_Error_stack : option string) (now_ISO : string)
    (captured_stack : option string) (code_ message_ : string)
    (error : Errors.Thrown) (canTryAgain_ dev : option bool)
    (requestId : option string) :
  Errors.resp_error
    (fst (Errors.createSafeError String_ new_Error_stack now_ISO
            (Errors.ThrownAppError
               (Errors.fromUnknown captured_stack code_ message_ error canTryAgain_))
            requestId dev)) = message_ /\
  Errors.resp_code
    (fst (Errors.createSafeError String_ new_Error_stack now_ISO
            (Errors.ThrownAppError
               (Errors.fromUnknown captured_stack code_ message_ error canTryAgain_))
            requestId dev)) = Some code_ /\
  Errors.getErrorStatusCode
    (Errors.ThrownAppError
       (Errors.fromUnknown captured_stack code_ message_ error canTryAgain_))
    = Errors.getStatusCodeFromErrorCode code_ /\
  Errors.json_cause
    (Errors.toJSON (Errors.fromUnknown captured_stack code_ message_ error canTryAgain_))
    = match error with
      | Errors.ThrownValue _ => None
      | _ => if Errors.truthy_string (Errors.thrown_message String_ error)
             then Some (Errors.thrown_message String_ error) else None
      end /\
  Errors.withCause captured_stack code_ message_ (Errors.as_cause error)
    = Errors.fromUnknown captured_stack code_ message_ error None.
Proof.
  repeat split; try reflexivity.
  destruct error as [e|e|v]; reflexivity.
Qed.
